(** * Scores backend: scheduling, ingest and filtered fan-out

    A shallow embedding of the backend of the scores dashboard
    (dbQueries.js, api.js, ingest.js, dailySchedule.js) and the properties
    of its filter evaluator, its ingest loop and its poll scheduler.

    Conventions of the embedding:
    - the [games] table is a list of rows in storage order;
    - an SQL [ORDER BY] promises the selected rows in ascending order of
      its keys and leaves the order of rows with equal keys to the
      database; the queries are functions that put such rows in storage
      order, which is one of the answers the database may give, and
      [Engine] states what every answer satisfies.  Nothing that is proved
      of the functions rests on the order of rows with equal keys, except
      the properties that say so;
    - a callback runs up to its next [await]; the firing of a poll job
      is a sequence of such pieces, between which other callbacks run
      ([Sched.advance]); [Sched.pollFiring] is a firing with nothing in
      between;
    - text columns are compared byte-wise ([String.leb]);
    - instants (timestamps, [Date] objects) are integers, in milliseconds;
    - storage calls do not fail; the upstream HTTP call and the
      normalisation of its payload can. *)

From Stdlib Require Import ZArith Sorting.Sorted.
From stdpp Require Import gmap strings list.

Local Open Scope string_scope.
Local Open Scope Z_scope.
Local Open Scope list_scope.

(** ** Sorting rows: [ORDER BY] *)

Section OrderBy.
Context {A : Type}.
Variable le : A -> A -> bool.

(** [place x l] puts [x] in front of the first row that is not
    smaller than it. *)
Fixpoint place (x : A) (l : list A) : list A :=
  match l with
  | [] => [x]
  | y :: l' => if le x y then x :: y :: l' else y :: place x l'
  end.

Fixpoint orderBy (l : list A) : list A :=
  match l with
  | [] => []
  | x :: l' => place x (orderBy l')
  end.

Definition le_total : Prop := forall x y, le x y = false -> le y x = true.
Definition le_trans : Prop :=
  forall x y z, le x y = true -> le y z = true -> le x z = true.

Definition ordered (l : list A) : Prop :=
  StronglySorted (fun x y => le x y = true) l.
End OrderBy.

(** Lexicographic combination of a strict comparison on the first
    component with a non-strict one on the rest. *)
Definition lexle {A B : Type} (ltA : A -> A -> bool) (leB : B -> B -> bool)
    (x y : A * B) : bool :=
  ltA x.1 y.1 || (negb (ltA y.1 x.1) && leB x.2 y.2).

(** [l.length === 0] *)
Definition isEmpty {A : Type} (l : list A) : bool :=
  match l with [] => true | _ => false end.

(** ** dbQueries.js *)

Module Store.

(** A row of the [games] table. *)
Record game := mkGame {
  league : string;
  external_game_id : string;
  link : option string;
  home_team_name : string;
  home_team_logo : option string;
  home_team_score : Z;
  away_team_name : string;
  away_team_logo : option string;
  away_team_score : Z;
  start_time : Z;
  short_detail : string;
  state : string
}.

#[global] Instance game_eq_dec : EqDecision game.
Proof. solve_decision. Defined.

Abbreviation table := (list game).

Definition excludedStates : list string := ["post"; "completed"; "final"].

(** [includes xs x] is JavaScript's [xs.includes(x)] on strings. *)
Definition includes (xs : list string) (x : string) : bool :=
  bool_decide (x ∈ xs).

(** [state != ALL(excludedStates)] *)
Definition notFinal (g : game) : bool := negb (includes excludedStates (state g)).

Definition sameKey (g h : game) : bool :=
  bool_decide (league g = league h) &&
  bool_decide (external_game_id g = external_game_id h).

(** [DELETE FROM games WHERE league IN (names)] *)
Definition clearNames (names : list string) (t : table) : table :=
  filter (fun g => league g ∉ names) t.

(** [INSERT ... ON CONFLICT (league, external_game_id) DO UPDATE]:
    the row with the same key is overwritten where it is, a row with
    a new key goes to the end. *)
Fixpoint upsertGame (g : game) (t : table) : table :=
  match t with
  | [] => [g]
  | h :: t' => if sameKey g h then g :: t' else h :: upsertGame g t'
  end.

(** [CASE WHEN state = 'in' THEN 1 ELSE 2 END] *)
Definition liveRank (g : game) : Z :=
  if bool_decide (state g = "in") then 1 else 2.

Definition allGamesKey (g : game) : Z * (string * (Z * string)) :=
  (liveRank g, (league g, (start_time g, external_game_id g))).

Definition keyLe : Z * (string * (Z * string)) -> Z * (string * (Z * string)) -> bool :=
  lexle Z.ltb (lexle String.ltb (lexle Z.ltb String.leb)).

(** [ORDER BY CASE ..., league ASC, start_time ASC, external_game_id ASC] *)
Definition allGamesLe (g h : game) : bool := keyLe (allGamesKey g) (allGamesKey h).

(** [ORDER BY start_time ASC] *)
Definition startLe (g h : game) : bool := start_time g <=? start_time h.

Definition getAllGames (t : table) : list game := orderBy allGamesLe t.

(** [SELECT * FROM games WHERE league = $1 ORDER BY start_time ASC]: the
    rows of the league by start time.  The statement names no further
    key, so the order of rows with the same start time is the choice of
    the database; here they come in storage order
    (see [Engine.answersByLeague] for what every answer satisfies). *)
Definition getGamesByLeague (leagueName : string) (t : table) : list game :=
  orderBy startLe (filter (fun g => league g = leagueName) t).

(** The rows of [getNotFinalGamesToday]: [currentDay <= start_time <
    nextDay], not final, by start time. *)
Definition getNotFinalGamesToday (currentDay nextDay : Z) (t : table) : list game :=
  orderBy startLe
    (filter (fun g => Is_true ((currentDay <=? start_time g) &&
                               (start_time g <? nextDay) && notFinal g)) t).

(** [areAllGamesFinal]: [COUNT( * )] of the rows of the league, dated
    as [currentDay], that are not final, compared with 0.  [dateOf] is
    SQL's [DATE(...)]. *)
Definition countNonFinal (dateOf : Z -> Z) (currentDay : Z) (leagueName : string)
    (t : table) : nat :=
  length (filter (fun g => league g = leagueName /\
                           dateOf (start_time g) = dateOf currentDay /\
                           Is_true (notFinal g)) t).

Definition areAllGamesFinal (dateOf : Z -> Z) (currentDay : Z) (leagueName : string)
    (t : table) : bool :=
  bool_decide (countNonFinal dateOf currentDay leagueName t = 0%nat).

End Store.

(** ** api.js: the filter evaluator *)

Module Filter.
Import Store.

Definition knownLeagues : list string :=
  ["NFL"; "NBA"; "MLB"; "NHL"; "MLS"; "NCAAF"; "NCAAB"].

(** [f.startsWith(p)] *)
Definition startsWith (p f : string) : bool := String.prefix p f.

Fixpoint dropChars (n : nat) (s : string) : string :=
  match n, s with
  | S n', String _ s' => dropChars n' s'
  | _, _ => s
  end.

(** [f.replace(p, '')]: the first occurrence of [p] is removed. *)
Fixpoint removeFirst (p f : string) : string :=
  if String.prefix p f then dropChars (String.length p) f
  else match f with
       | EmptyString => EmptyString
       | String c f' => String c (removeFirst p f')
       end.

Definition isLeagueToken (f : string) : bool := includes knownLeagues f.
Definition isStateToken (f : string) : bool := startsWith "state_" f.

Definition leagueFilters (filters : list string) : list string :=
  filter (fun f => Is_true (isLeagueToken f)) filters.

Definition stateFilters (filters : list string) : list string :=
  removeFirst "state_" <$> filter (fun f => Is_true (isStateToken f)) filters.

Definition stateMatch (sf : list string) (g : game) : bool := includes sf (state g).

(** The concatenation built by the loop over [leagueFilters]. *)
Fixpoint concatLeagues (ls : list string) (t : table) : list game :=
  match ls with
  | [] => []
  | l :: ls' => getGamesByLeague l t ++ concatLeagues ls' t
  end.

Definition getFilteredGames (filters : list string) (t : table) : list game :=
  if isEmpty filters then getAllGames t
  else
    let lf := leagueFilters filters in
    let sf := stateFilters filters in
    if negb (isEmpty lf) then
      let allFilteredGames := concatLeagues lf t in
      if negb (isEmpty sf)
      then filter (fun g => Is_true (stateMatch sf g)) allFilteredGames
      else allFilteredGames
    else if negb (isEmpty sf) then
      filter (fun g => Is_true (stateMatch sf g)) (getAllGames t)
    else getAllGames t.

End Filter.

(** ** ingest.js *)

Module Ingest.
Import Store.

(** An entry [{ name, slug }] of a batch; [slug] is [None] for the
    [null] that [getSlugForLeague] gives an unconfigured league. *)
Record leagueRef := mkLeague { name : string; slug : option string }.

(** One competitor of an upstream event: [team.shortDisplayName],
    [team.logo] and [parseInt(score, 10)] ([None] for [NaN]). *)
Record competitor := mkCompetitor {
  shortDisplayName : option string;
  logo : option string;
  score : option Z
}.

(** An upstream event.  [date] is [None] when [new Date(game.date)] is
    an invalid date, for which [toISOString] throws. *)
Record event := mkEvent {
  id : string;
  href : option string;
  competitors : list competitor;
  date : option Z;
  shortDetail : option string;
  evState : option string
}.

(** What [axios.get] does: it throws (network error, 4xx, 5xx) or
    gives a body whose [events] may be missing. *)
Inductive response :=
| HttpError
| Body (events : option (list event)).

Record upstream := mkUpstream {
  ESPN_API_URL : string;
  axios_get : string -> response
}.

(** [x || d] on a string that may be missing: the empty string is
    falsy as well. *)
Definition orString (x : option string) (d : string) : string :=
  match x with
  | Some (String c s) => String c s
  | _ => d
  end.

(** [x || null] *)
Definition orNull (x : option string) : option string :=
  match x with
  | Some (String c s) => Some (String c s)
  | _ => None
  end.

Definition scoreboardUrl (u : upstream) (l : leagueRef) : string :=
  ESPN_API_URL u +:+ "/" +:+ default "null" (slug l) +:+ "/scoreboard".

(** The body of [games.map(game => ...)]; [None] when it throws. *)
Definition normalize (leagueName : string) (e : event) : option game :=
  let team1 := competitors e !! 0%nat in
  let team2 := competitors e !! 1%nat in
  startTime ← date e;
  Some {| league := leagueName;
          external_game_id := id e;
          link := orNull (href e);
          home_team_name := orString (team1 ≫= shortDisplayName) "TBD";
          home_team_logo := orNull (team1 ≫= logo);
          home_team_score := default 0 (team1 ≫= score);
          away_team_name := orString (team2 ≫= shortDisplayName) "TBD";
          away_team_logo := orNull (team2 ≫= logo);
          away_team_score := default 0 (team2 ≫= score);
          start_time := startTime;
          short_detail := orString (shortDetail e) "N/A";
          state := orString (evState e) "N/A" |}.

(** [for (const g of cleanedData) await upsertGame(g)] *)
Definition upsertAll (cleanedData : list game) (t : table) : table :=
  foldl (fun acc g => upsertGame g acc) t cleanedData.

(** [clearTable] of dbQueries.js on the names of the batch: with no
    league the statement reads [IN ()], which the database rejects, so
    the call throws. *)
Definition clearTable (leaguesToIngest : list leagueRef) (t : table) : option table :=
  match leaguesToIngest with
  | [] => None
  | _ => Some (clearNames (name <$> leaguesToIngest) t)
  end.

(** What one call of [ingestData] leaves behind: the table, the URLs it
    requested in order, and whether its [catch] logged an error. *)
Record outcome := mkOutcome {
  db : table;
  requested : list string;
  errorLogged : bool
}.

(** The [for] loop inside the [try]: the first league whose fetch or
    normalisation throws ends the loop in the [catch]. *)
Fixpoint ingestLoop (u : upstream) (ls : list leagueRef) (t : table) : outcome :=
  match ls with
  | [] => mkOutcome t [] false
  | l :: ls' =>
      let url := scoreboardUrl u l in
      match axios_get u url with
      | HttpError => mkOutcome t [url] true
      | Body events =>
          match mapM (normalize (name l)) (default [] events) with
          | None => mkOutcome t [url] true
          | Some cleanedData =>
              let r := ingestLoop u ls' (upsertAll cleanedData t) in
              mkOutcome (db r) (url :: requested r) (errorLogged r)
          end
      end
  end.

(** [ingestData]; [None] when the call itself rejects, which is when
    [clearTable], outside the [try], throws. *)
Definition ingestData (u : upstream) (leaguesToIngest : list leagueRef)
    (t : table) : option outcome :=
  t0 ← clearTable leaguesToIngest t;
  Some (ingestLoop u leaguesToIngest t0).

End Ingest.

(** ** api.js: connections and broadcast *)

Module Api.
Import Store Filter.

(** A connection is identified by a number. *)
Definition conn := nat.

(** Messages sent to a client; the [timestamp] and the free-text
    [message] fields, and the random payload of the test reply, are
    left out. *)
Inductive outMsg :=
| Welcome
| FilteredData (data : list game) (filters : option (list string)) (count : nat)
    (is_refresh : bool)
| Echo (original_message : option string)
| NewData
| GamesUpdated (leagueName : string)
| ErrorMsg (message : string).

(** A message from a client after [JSON.parse] and the [switch] on its
    [type]; [Malformed] is a text that does not parse. *)
Inductive inMsg :=
| Malformed
| ConnectionMsg
| FilterRequest (filters : option (list string))
| UserMessage (message : option string)
| TestRequest
| UnknownType.

Record apiState := mkApi {
  wss : bool;
  clients : list conn;
  clientFilters : gmap conn (option (list string));
  outbox : list (conn * outMsg)
}.

Definition send (ws : conn) (m : outMsg) (a : apiState) : apiState :=
  mkApi (wss a) (clients a) (clientFilters a) (outbox a ++ [(ws, m)]).

(** [clients.add(ws)] on a [Set], which keeps insertion order. *)
Definition setAdd (ws : conn) (cs : list conn) : list conn :=
  if bool_decide (ws ∈ cs) then cs else cs ++ [ws].

Definition setDelete (ws : conn) (cs : list conn) : list conn :=
  filter (fun c => c <> ws) cs.

Definition onConnection (ws : conn) (a : apiState) : apiState :=
  send ws Welcome
    (mkApi (wss a) (setAdd ws (clients a)) (<[ws := Some []]> (clientFilters a))
       (outbox a)).

(** [close] and [error] handlers. *)
Definition onClose (ws : conn) (a : apiState) : apiState :=
  mkApi (wss a) (setDelete ws (clients a)) (delete ws (clientFilters a)) (outbox a).

(** [getFilteredGames(filters)] where [filters] may be [undefined]:
    [!filters] takes the branch of the empty array. *)
Definition filtered (filters : option (list string)) (t : table) : list game :=
  getFilteredGames (default [] filters) t.

(** The [message] handler of connection [ws]. *)
Definition onMessage (ws : conn) (m : inMsg) (t : table) (a : apiState) : apiState :=
  match m with
  | Malformed => send ws (ErrorMsg "Invalid JSON format") a
  | ConnectionMsg =>
      let initialGames := getFilteredGames [] t in
      send ws (FilteredData initialGames (Some []) (length initialGames) false) a
  | FilterRequest filters =>
      let a' := mkApi (wss a) (clients a) (<[ws := filters]> (clientFilters a))
                  (outbox a) in
      let filteredGames := filtered filters t in
      send ws (FilteredData filteredGames filters (length filteredGames) false) a'
  | UserMessage message => send ws (Echo message) a
  | TestRequest => send ws NewData a
  | UnknownType => send ws (ErrorMsg "Unknown message type") a
  end.

(** [clientFilters.get(client) || []] *)
Definition currentFiltersOf (a : apiState) (client : conn) : list string :=
  default [] (mjoin (clientFilters a !! client)).

(** [optionalLeague || 'ALL'] *)
Definition leagueOrAll (optionalLeague : option string) : string :=
  match optionalLeague with
  | Some (String c s) => String c s
  | _ => "ALL"
  end.

(** [broadcastUpdatedGames]: a notice to every open client, then a
    refreshed snapshot to every open client. *)
Definition broadcastUpdatedGames (isOpen : conn -> bool)
    (optionalLeague : option string) (t : table) (a : apiState) : apiState :=
  if negb (wss a) || isEmpty (clients a) then a
  else
    let targets := filter (fun c => Is_true (isOpen c)) (clients a) in
    let notified :=
      foldl (fun acc c => send c (GamesUpdated (leagueOrAll optionalLeague)) acc)
        a targets in
    foldl (fun acc c =>
             let currentFilters := currentFiltersOf acc c in
             let refreshedData := getFilteredGames currentFilters t in
             send c (FilteredData refreshedData (Some currentFilters)
                       (length refreshedData) true) acc)
      notified targets.

End Api.

(** ** dailySchedule.js *)

Module Sched.
Import Store Ingest Api.

(** The scheduler's state: the registry [scheduledLeagueJobs] (league
    to job), the recurring jobs of the timer library that are not
    cancelled (job to the league of its closure), the one-shot timers
    waiting for their date, and the number of the next job object. *)
Record sched := mkSched {
  scheduledLeagueJobs : gmap string nat;
  liveJobs : gmap nat string;
  timers : list (Z * string);
  nextJob : nat
}.

Definition initial : sched := mkSched ∅ ∅ [] 0.

(** [startFrequentPoll(league)] *)
Definition startFrequentPoll (leagueName : string) (s : sched) : sched :=
  let s1 :=
    match scheduledLeagueJobs s !! leagueName with
    | Some old =>
        (* .cancel() and delete *)
        mkSched (delete leagueName (scheduledLeagueJobs s)) (delete old (liveJobs s))
          (timers s) (nextJob s)
    | None => s
    end in
  let job := nextJob s1 in
  mkSched (<[leagueName := job]> (scheduledLeagueJobs s1))
    (<[job := leagueName]> (liveJobs s1)) (timers s1) (S job).

(** [job.cancel(); delete scheduledLeagueJobs[league]] at the end of a
    firing whose check said [done]. *)
Definition cancelSelf (job : nat) (leagueName : string) (s : sched) : sched :=
  mkSched (delete leagueName (scheduledLeagueJobs s)) (delete job (liveJobs s))
    (timers s) (nextJob s).

(** An entry of [leagueMap]. *)
Record leagueInfo := mkInfo { earliestStart : Z; hasInProgress : bool }.

(** [leagueMap] is an object used as a map; its keys are enumerated in
    the order in which they were first set. *)
Definition leagueMapT := list (string * leagueInfo).

Fixpoint mapGet (k : string) (m : leagueMapT) : option leagueInfo :=
  match m with
  | [] => None
  | (k', v) :: m' => if bool_decide (k = k') then Some v else mapGet k m'
  end.

Fixpoint mapSet (k : string) (v : leagueInfo) (m : leagueMapT) : leagueMapT :=
  match m with
  | [] => [(k, v)]
  | (k', v') :: m' =>
      if bool_decide (k = k') then (k, v) :: m' else (k', v') :: mapSet k v m'
  end.

(** The body of the loop over [rows]. *)
Definition addRow (m : leagueMapT) (row : game) : leagueMapT :=
  let m1 :=
    match mapGet (league row) m with
    | None => mapSet (league row) (mkInfo (start_time row) false) m
    | Some i =>
        if start_time row <? earliestStart i
        then mapSet (league row) (mkInfo (start_time row) (hasInProgress i)) m
        else m
    end in
  if bool_decide (state row = "in") then
    match mapGet (league row) m1 with
    | Some i => mapSet (league row) (mkInfo (earliestStart i) true) m1
    | None => m1
    end
  else m1.

Definition buildLeagueMap (rows : list game) : leagueMapT := foldl addRow [] rows.

(** [earliestStart.getTime() - 15 * 60_000] *)
Definition pollStartTime (i : leagueInfo) : Z := earliestStart i - 15 * 60000.

(** The test of step 3: [pollStartTime < now || hasInProgress]. *)
Definition startsNow (i : leagueInfo) (now : Z) : bool :=
  (pollStartTime i <? now) || hasInProgress i.

(** [schedule.scheduleJob(pollStartTime, () => startFrequentPoll(league))]
    of the timer library: a one-shot job is registered when its date is
    not behind the clock that the library reads in the call, [callNow];
    for a date that is already behind it the call returns [null] and
    nothing is registered. *)
Definition scheduleAt (callNow : Z) (at_ : Z) (leagueName : string) (s : sched) : sched :=
  if callNow <=? at_
  then mkSched (scheduledLeagueJobs s) (liveJobs s) (timers s ++ [(at_, leagueName)])
         (nextJob s)
  else s.

(** The body of the loop over [Object.keys(leagueMap)]; [clock] is the
    value of [new Date()] read in the iteration of a league, and
    [callClock] the value of the clock when the library is called in that
    iteration. *)
Definition scheduleLeague (clock callClock : string -> Z) (s : sched)
    (entry : string * leagueInfo) : sched :=
  let (leagueName, i) := entry in
  if startsNow i (clock leagueName) then startFrequentPoll leagueName s
  else scheduleAt (callClock leagueName) (pollStartTime i) leagueName s.

(** [runDailySchedule] on the rows of [getNotFinalGamesToday]. *)
Definition runDailySchedule (clock callClock : string -> Z) (rows : list game)
    (s : sched) : sched :=
  if isEmpty rows then s
  else foldl (scheduleLeague clock callClock) s (buildLeagueMap rows).

(** A one-shot timer reaches its date: it leaves the pending timers and
    its callback starts the poll. *)
Definition fireTimer (n : nat) (s : sched) : sched :=
  match timers s !! n with
  | Some (_, leagueName) =>
      startFrequentPoll leagueName
        (mkSched (scheduledLeagueJobs s) (liveJobs s) (delete n (timers s)) (nextJob s))
  | None => s
  end.

(** What the process reads from its surroundings at one firing. *)
Record env := mkEnv {
  up : upstream;
  leagueConfigs : list leagueRef;
  dateOf : Z -> Z;
  currentDay : Z;
  nextDay : Z;
  isOpen : conn -> bool
}.

(** [getSlugForLeague] *)
Definition getSlugForLeague (e : env) (leagueName : string) : option string :=
  match List.find (fun cfg => bool_decide (name cfg = leagueName)) (leagueConfigs e) with
  | Some found => slug found
  | None => None
  end.

Record world := mkWorld {
  games : table;
  jobs : sched;
  api : apiState
}.

(** The answer of [areAllGamesFinal] in a firing of the poll of a
    league: it is asked after the ingest of that league. *)
Definition firingIngest (e : env) (leagueName : string) (w : world) : option outcome :=
  ingestData (up e) [mkLeague leagueName (getSlugForLeague e leagueName)] (games w).

Definition firingCheck (e : env) (leagueName : string) (w : world) : option bool :=
  r ← firingIngest e leagueName w;
  Some (areAllGamesFinal (dateOf e) (currentDay e) leagueName (db r)).

(** One firing of the recurring job [job] of [startFrequentPoll(league)],
    run to its end with no other callback between its awaits (see
    [advance] for the firing piece by piece). *)
Definition pollFiring (e : env) (leagueName : string) (job : nat) (w : world) : world :=
  match firingIngest e leagueName w with
  | None => w
  | Some r =>
      let api' := broadcastUpdatedGames (isOpen e) (Some leagueName) (db r) (api w) in
      let done := areAllGamesFinal (dateOf e) (currentDay e) leagueName (db r) in
      if done
      then mkWorld (db r) (cancelSelf job leagueName (jobs w)) api'
      else mkWorld (db r) (jobs w) api'
  end.

(** A job fires only while it is not cancelled. *)
Definition isLive (job : nat) (w : world) : bool :=
  bool_decide (is_Some (liveJobs (jobs w) !! job)).

(** The firings of one job, one per element of [es], from the first
    on; ticks after its cancellation do nothing. *)
Fixpoint firings (leagueName : string) (job : nat) (es : list env) (w : world) : world :=
  match es with
  | [] => w
  | e :: es' =>
      if isLive job w then firings leagueName job es' (pollFiring e leagueName job w)
      else w
  end.

(** The answers of the check in the firings that took place. *)
Fixpoint checks (leagueName : string) (job : nat) (es : list env) (w : world)
    : list (option bool) :=
  match es with
  | [] => []
  | e :: es' =>
      if isLive job w
      then firingCheck e leagueName w :: checks leagueName job es' (pollFiring e leagueName job w)
      else []
  end.

(** The daily run of the process: the rows are read from the table. *)
Definition dailyRun (e : env) (clock callClock : string -> Z) (w : world) : world :=
  mkWorld (games w)
    (runDailySchedule clock callClock
       (getNotFinalGamesToday (currentDay e) (nextDay e) (games w)) (jobs w))
    (api w).

(** Where a firing of a poll job stands among the awaits of its
    callback: before the ingest, before the broadcast, before the check,
    or with the answer of the check in hand and the rest of the callback
    still to run. *)
Inductive stage :=
| AwaitIngest
| AwaitBroadcast
| AwaitCheck
| Answered (done : bool).

(** A firing that has started: its job is the [job] of the closure, its
    league the [league] of the closure. *)
Record firing := mkFiring {
  firingJob : nat;
  firingLeague : string;
  firingStage : stage
}.

(** The process: the world, and the firings that are under way. *)
Record process := mkProcess {
  current : world;
  inflight : list firing
}.

(** The next piece of a firing, up to its next await; [None] when the
    callback has ended.  A call of [ingestData] that rejects ends it in
    the [catch]. *)
Definition advance (e : env) (f : firing) (w : world) : world * option firing :=
  let job := firingJob f in
  let leagueName := firingLeague f in
  match firingStage f with
  | AwaitIngest =>
      match firingIngest e leagueName w with
      | None => (w, None)
      | Some r =>
          (mkWorld (db r) (jobs w) (api w), Some (mkFiring job leagueName AwaitBroadcast))
      end
  | AwaitBroadcast =>
      (mkWorld (games w) (jobs w)
         (broadcastUpdatedGames (isOpen e) (Some leagueName) (games w) (api w)),
       Some (mkFiring job leagueName AwaitCheck))
  | AwaitCheck =>
      (w, Some (mkFiring job leagueName
                  (Answered (areAllGamesFinal (dateOf e) (currentDay e) leagueName
                               (games w)))))
  | Answered done =>
      (if done then mkWorld (games w) (cancelSelf job leagueName (jobs w)) (api w) else w,
       None)
  end.

(** What happens in the process, one callback piece at a time: a daily
    (or hourly) run of the schedule, a one-shot timer reaching its date,
    the tick of a poll job that is not cancelled, the next piece of a
    firing under way, an ingest, a message of a client.  The pieces of a
    run of the schedule, and those of an ingest, are taken together: every
    sequence of operations is an execution of the process, in which
    nothing else runs between those pieces. *)
Inductive op :=
| Daily (e : env) (clock callClock : string -> Z)
| Timer (n : nat)
| Tick (job : nat)
| Advance (e : env) (n : nat)
| Ingest (u : upstream) (ls : list leagueRef)
| Message (ws : conn) (m : inMsg).

(** The effect of an operation; [None] when it cannot happen. *)
Definition perform (o : op) (p : process) : option process :=
  let w := current p in
  match o with
  | Daily e clock callClock => Some (mkProcess (dailyRun e clock callClock w) (inflight p))
  | Timer n =>
      _ ← timers (jobs w) !! n;
      Some (mkProcess (mkWorld (games w) (fireTimer n (jobs w)) (api w)) (inflight p))
  | Tick job =>
      leagueName ← liveJobs (jobs w) !! job;
      Some (mkProcess w (inflight p ++ [mkFiring job leagueName AwaitIngest]))
  | Advance e n =>
      f ← inflight p !! n;
      Some (mkProcess (advance e f w).1
              (match (advance e f w).2 with
               | Some f' => <[n := f']> (inflight p)
               | None => delete n (inflight p)
               end))
  | Ingest u ls =>
      r ← ingestData u ls (games w);
      Some (mkProcess (mkWorld (db r) (jobs w) (api w)) (inflight p))
  | Message ws m =>
      Some (mkProcess (mkWorld (games w) (jobs w) (onMessage ws m (games w) (api w)))
              (inflight p))
  end.

Fixpoint run (os : list op) (p : process) : option process :=
  match os with
  | [] => Some p
  | o :: os' => p' ← perform o p; run os' p'
  end.



(** The registry and the jobs that are not cancelled agree, and job
    numbers are used once. *)
Definition consistent (s : sched) : Prop :=
  (forall l j, scheduledLeagueJobs s !! l = Some j <-> liveJobs s !! j = Some l) /\
  (forall j l, liveJobs s !! j = Some l -> (j < nextJob s)%nat).

(** The job of a league runs: it is not cancelled and the registry
    names it. *)
Definition running (job : nat) (leagueName : string) (s : sched) : Prop :=
  liveJobs s !! job = Some leagueName /\
  scheduledLeagueJobs s !! leagueName = Some job.

End Sched.

(** ** Vocabulary of the properties *)

(** How often [x] occurs in [l]. *)
Definition occurrences {A : Type} `{EqDecision A} (x : A) (l : list A) : nat :=
  length (filter (x =.) l).

Module Tokens.
Import Store Filter.

(** The states of a game that the dashboard offers as filters. *)
Definition knownStates : list string := ["pre"; "in"; "post"].

(** A token that names a known league, or that maps to a known state. *)
Definition recognized (f : string) : bool :=
  isLeagueToken f || (isStateToken f && includes knownStates (removeFirst "state_" f)).

(** A token that the evaluator reads: a known league, or anything
    with the prefix of the state tokens. *)
Definition read (f : string) : bool := isLeagueToken f || isStateToken f.

Definition keep (p : string -> bool) (filters : list string) : list string :=
  filter (fun f => Is_true (p f)) filters.

(** A game passes the state restriction of a selection. *)
Definition passesState (filters : list string) (g : game) : Prop :=
  stateFilters filters = [] \/ state g ∈ stateFilters filters.

(** Live games come first in a result. *)
Fixpoint liveFirst (l : list game) : bool :=
  match l with
  | [] => true
  | g :: l' =>
      (bool_decide (state g = "in") ||
       forallb (fun h => negb (bool_decide (state h = "in"))) l') && liveFirst l'
  end.
End Tokens.

Module Batch.
Import Store Ingest.

(** The rows that the loop of [ingestData] gets for a league: [None]
    when the fetch or the normalisation throws. *)
Definition leagueData (u : upstream) (l : leagueRef) : option (list game) :=
  match axios_get u (scoreboardUrl u l) with
  | HttpError => None
  | Body events => mapM (normalize (name l)) (default [] events)
  end.

Definition names (ls : list leagueRef) : list string := name <$> ls.

Definition rowsOf (leagueName : string) (t : table) : list game :=
  filter (fun g => league g = leagueName) t.

Definition rowsOutside (ns : list string) (t : table) : list game :=
  filter (fun g => league g ∉ ns) t.
End Batch.

(** Sample rows. *)
Module Samples.
Import Store Ingest.

Definition row (l i : string) (start : Z) (st : string) : game :=
  mkGame l i None "Home" None 0 "Away" None 0 start "detail" st.

Definition nflLive : game := row "NFL" "401" 2000 "in".
Definition nflPost : game := row "NFL" "402" 1000 "post".
Definition nbaPre : game := row "NBA" "403" 500 "pre".
Definition threeGames : table := [nflLive; nflPost; nbaPre].


Definition nfl : leagueRef := mkLeague "NFL" (Some "football/nfl").
Definition nba : leagueRef := mkLeague "NBA" (Some "basketball/nba").

Definition nbaEvent : event :=
  mkEvent "403" None
    [mkCompetitor (Some "Home") None None; mkCompetitor (Some "Away") None None]
    (Some 500) (Some "detail") (Some "pre").

(** An upstream whose NFL scoreboard fails and whose NBA scoreboard
    has one event. *)
Definition nflDown : upstream :=
  mkUpstream "https://espn.test"
    (fun url => if bool_decide (url = "https://espn.test/football/nfl/scoreboard")
                then HttpError else Body (Some [nbaEvent])).

Definition nflEvent (st : string) : event :=
  mkEvent "401" None
    [mkCompetitor (Some "Home") None (Some 7); mkCompetitor (Some "Away") None (Some 3)]
    (Some 2000) (Some "detail") (Some st).

(** An upstream that reports the one NFL game of the day in state [st]. *)
Definition nflIs (st : string) : upstream :=
  mkUpstream "https://espn.test" (fun _ => Body (Some [nflEvent st])).
End Samples.

Module Scenes.
Import Store Ingest Api Sched Samples.

Definition noClients : apiState := mkApi true [] ∅ [].

(** A day is 86400000 ms; day 0 is the current day. *)
Definition dayOf (t : Z) : Z := t / 86400000.

Definition envWith (u : upstream) : env :=
  mkEnv u [nfl; nba] dayOf 0 86400000 (fun _ => true).

(** The process after [startFrequentPoll("NFL")]: job 0 polls NFL. *)
Definition nflPolling : world :=
  mkWorld threeGames (startFrequentPoll "NFL" initial) noClients.

(** The process after a second [startFrequentPoll("NFL")]. *)
Definition nflRestarted : world :=
  mkWorld threeGames (startFrequentPoll "NFL" (startFrequentPoll "NFL" initial))
    noClients.

(** The time of the daily run, and an NFL game whose start is exactly
    fifteen minutes later. *)
Definition runTime : Z := 1000000.
Definition kickoffInFifteen : game := row "NFL" "500" (runTime + 15 * 60000) "pre".
Definition kickoffSooner : game := row "NFL" "501" (runTime + 15 * 60000 - 1) "pre".



End Scenes.

(** ** Keys of the table *)

Module Keys.
Import Store.

(** The conflict target of the upsert: [(league, external_game_id)]. *)
Definition keyOf (g : game) : string * string := (league g, external_game_id g).

(** The unique constraint on that target. *)
Definition uniqueKeys (t : table) : Prop := NoDup (keyOf <$> t).
End Keys.

(** ** The answers of the database *)

Module Engine.
Import Store Filter Ingest.

(** What a [SELECT ... ORDER BY] on the keys of [le] promises of its
    answer [res] for the selected [rows]: the same rows, each as often,
    and none after a row with a greater key.  Rows with equal keys come
    in the order that the database chooses. *)
Definition answers (le : game -> game -> bool) (rows res : list game) : Prop :=
  res ≡ₚ rows /\ ordered le res.

(** The answers of the statement of [getGamesByLeague]. *)
Definition answersByLeague (leagueName : string) (t : table) (res : list game) : Prop :=
  answers startLe (filter (fun g => league g = leagueName) t) res.

(** The answers of the statement of [getAllGames]. *)
Definition answersAll (t : table) (res : list game) : Prop := answers allGamesLe t res.

(** The concatenation that the loop over [leagueFilters] builds, with
    an answer of the league query for each token. *)
Inductive concatAnswers (t : table) : list string -> list game -> Prop :=
| concat_nil : concatAnswers t [] []
| concat_cons l ls res rest :
    answersByLeague l t res -> concatAnswers t ls rest ->
    concatAnswers t (l :: ls) (res ++ rest).

(** The results that [getFilteredGames] may return: its branches, with
    an answer of the database for each query. *)
Definition mayReturn (filters : list string) (t : table) (res : list game) : Prop :=
  if isEmpty filters then answersAll t res
  else
    let lf := leagueFilters filters in
    let sf := stateFilters filters in
    if negb (isEmpty lf) then
      exists allFilteredGames,
        concatAnswers t lf allFilteredGames /\
        res = if negb (isEmpty sf)
              then filter (fun g => Is_true (stateMatch sf g)) allFilteredGames
              else allFilteredGames
    else
      exists allGames,
        answersAll t allGames /\
        res = if negb (isEmpty sf)
              then filter (fun g => Is_true (stateMatch sf g)) allGames
              else allGames.

(** The table that holds the rows of a result: they are upserted one
    after the other into an empty table. *)
Definition stored (res : list game) : table := upsertAll res [].
End Engine.

(** ** api.js: the remaining exports, and the life of the registry *)

Module ApiMore.
Import Store Filter Api.

(** The answer of [getConnectionStats]. *)
Record stats := mkStats { total_clients : nat; clients_with_filters : nat }.

(** [filters.length > 0] on a stored selection; reading [length] of
    [undefined] throws. *)
Definition hasFilters (stored : option (list string)) : option bool :=
  fs ← stored; Some (negb (isEmpty fs)).

(** [getConnectionStats]; [None] when it throws. *)
Definition getConnectionStats (a : apiState) : option stats :=
  flags ← mapM (fun entry => hasFilters entry.2) (map_to_list (clientFilters a));
  Some (mkStats (length (clients a)) (length (filter (fun b => Is_true b) flags))).

(** What happens to the registry: a client connects, a connected client
    sends a message, a connected client goes away, the server broadcasts. *)
Inductive apiStep (t : table) : apiState -> apiState -> Prop :=
| api_connect ws a : ws ∉ clients a -> apiStep t a (onConnection ws a)
| api_message ws m a : ws ∈ clients a -> apiStep t a (onMessage ws m t a)
| api_close ws a : apiStep t a (onClose ws a)
| api_broadcast isOpen l a : apiStep t a (broadcastUpdatedGames isOpen l t a).

(** The registry of a server that has just started listening. *)
Definition started : apiState := mkApi true [] ∅ [].

(** The states of the registry, whatever the table is at each step. *)
Inductive apiReachable : apiState -> Prop :=
| api_init : apiReachable started
| api_next t a a' : apiReachable a -> apiStep t a a' -> apiReachable a'.

(** Each connected client is listed once and has exactly one stored
    selection; nobody else has one. *)
Definition registered (a : apiState) : Prop :=
  NoDup (clients a) /\ forall c, c ∈ clients a <-> is_Some (clientFilters a !! c).

(** Every snapshot message carries the length of its data as count. *)
Definition countOk (m : conn * outMsg) : Prop :=
  match m.2 with
  | FilteredData data _ count _ => count = length data
  | _ => True
  end.

(** The messages of one broadcast for its targets: the notices, then
    the refreshed snapshots. *)
Definition notices (optionalLeague : option string) (targets : list conn)
    : list (conn * outMsg) :=
  (fun c => (c, GamesUpdated (leagueOrAll optionalLeague))) <$> targets.

Definition refreshes (t : table) (a : apiState) (targets : list conn)
    : list (conn * outMsg) :=
  (fun c => let fs := currentFiltersOf a c in
            (c, FilteredData (getFilteredGames fs t) (Some fs)
                  (length (getFilteredGames fs t)) true)) <$> targets.
End ApiMore.

(** ** The filter server on mock data *)

Module Mock.

(** An element of [mockData]. *)
Record item := mkItem {
  id : Z;
  name : string;
  category : string;
  status : string;
  priority : string;
  value : Z
}.

Definition categoryFilters (filters : list string) : list string :=
  filter (fun f => Is_true (Filter.startsWith "category" f)) filters.

Definition statusFilters (filters : list string) : list string :=
  Filter.removeFirst "status_" <$>
    filter (fun f => Is_true (Filter.startsWith "status_" f)) filters.

Definition priorityFilters (filters : list string) : list string :=
  Filter.removeFirst "priority_" <$>
    filter (fun f => Is_true (Filter.startsWith "priority_" f)) filters.

(** The callback of [mockData.filter]. *)
Definition matches (filters : list string) (it : item) : bool :=
  let categoryMatch :=
    isEmpty (categoryFilters filters) ||
    Store.includes (categoryFilters filters) (category it) in
  let statusMatch :=
    isEmpty (statusFilters filters) || Store.includes (statusFilters filters) (status it) in
  let priorityMatch :=
    isEmpty (priorityFilters filters) ||
    Store.includes (priorityFilters filters) (priority it) in
  categoryMatch && statusMatch && priorityMatch.

(** [filterData(filters)] over the current [mockData]. *)
Definition filterData (filters : list string) (mockData : list item) : list item :=
  if isEmpty filters then mockData
  else filter (fun it => Is_true (matches filters it)) mockData.
End Mock.

(** ** The dashboard: toggles and the selection it sends *)

Module Dashboard.
Import Api.

(** The [toggles] object: its keys in the order in which they were set,
    each with its switch. *)
Abbreviation togglesT := (list (string * bool)).

Fixpoint getToggle (k : string) (ts : togglesT) : option bool :=
  match ts with
  | [] => None
  | (k', v) :: ts' => if bool_decide (k = k') then Some v else getToggle k ts'
  end.

(** [{ ...toggles, [k]: v }] *)
Fixpoint setToggle (k : string) (v : bool) (ts : togglesT) : togglesT :=
  match ts with
  | [] => [(k, v)]
  | (k', v') :: ts' =>
      if bool_decide (k = k') then (k, v) :: ts' else (k', v') :: setToggle k v ts'
  end.

(** The new toggles of [handleToggleChange]: [!toggles[toggleKey]] is
    [true] for a key that is not there. *)
Definition handleToggleChange (toggleKey : string) (ts : togglesT) : togglesT :=
  setToggle toggleKey (negb (default false (getToggle toggleKey ts))) ts.

(** [Object.entries(t).filter(([key, value]) => value).map(([key]) => key)] *)
Definition activeFilters (ts : togglesT) : list string :=
  (filter (fun e => Is_true e.2) ts).*1.

(** The toggles of [clearAllFilters]. *)
Definition clearAllFilters (ts : togglesT) : togglesT :=
  foldl (fun acc key => setToggle key false acc) [] ts.*1.

(** [sendFilterRequest]: the message for the server, when the socket is
    open. *)
Definition sendFilterRequest (socketOpen : bool) (ts : togglesT) : option inMsg :=
  if socketOpen then Some (FilterRequest (Some (activeFilters ts))) else None.

(** The toggles the games dashboard starts with. *)
Definition initialToggles : togglesT :=
  [("NFL", false); ("NBA", false); ("MLB", false); ("NHL", false); ("MLS", false);
   ("NCAAF", false); ("NCAAB", false); ("state_pre", false); ("state_in", false);
   ("state_post", false)].
End Dashboard.

(** * Properties *)

(** ** Sorting *)

Section OrderByFacts.
Context {A : Type}.
Variable le : A -> A -> bool.

Lemma place_perm (x : A) (l : list A) : place le x l ≡ₚ x :: l.
Proof.
  induction l as [|y l IH]; simpl; [done|].
  destruct (le x y); [done|].
  rewrite IH. apply Permutation_swap.
Qed.

Lemma orderBy_perm (l : list A) : orderBy le l ≡ₚ l.
Proof.
  induction l as [|x l IH]; simpl; [done|].
  by rewrite place_perm, IH.
Qed.

Lemma ordered_filter (P : A -> Prop) `{!forall x, Decision (P x)} (l : list A) :
  ordered le l -> ordered le (filter P l).
Proof.
  induction 1 as [|x l Hs IH Hx]; [constructor|].
  rewrite filter_cons. destruct (decide (P x)); [|done].
  constructor; [done|].
  apply Forall_forall. intros y Hy.
  apply list_elem_of_filter in Hy as [_ Hy].
  rewrite Forall_forall in Hx. by apply Hx.
Qed.

Hypothesis total : le_total le.
Hypothesis trans : le_trans le.

Lemma place_ordered (x : A) (l : list A) : ordered le l -> ordered le (place le x l).
Proof.
  induction 1 as [|y l Hs IH Hy]; simpl.
  - repeat constructor.
  - destruct (le x y) eqn:Hxy.
    + constructor; [by constructor|].
      constructor; [done|].
      eapply Forall_impl; [exact Hy|]. intros z Hz. by eapply trans.
    + constructor; [done|].
      apply Forall_forall. intros z Hz.
      rewrite place_perm in Hz.
      apply elem_of_cons in Hz as [->|Hz]; [by apply total|].
      rewrite Forall_forall in Hy. by apply Hy.
Qed.

Lemma orderBy_ordered (l : list A) : ordered le (orderBy le l).
Proof.
  induction l as [|x l IH]; simpl; [constructor|]. by apply place_ordered.
Qed.

End OrderByFacts.

(** Lexicographic comparisons are total and transitive. *)
Section Lex.
Context {A B : Type}.
Variables (ltA : A -> A -> bool) (leB : B -> B -> bool).
Hypothesis ltA_trans :
  forall x y z, ltA x y = true -> ltA y z = true -> ltA x z = true.
Hypothesis ltA_negtrans :
  forall x y z, ltA x y = false -> ltA y z = false -> ltA x z = false.
Hypothesis leB_total : le_total leB.
Hypothesis leB_trans : le_trans leB.

Lemma lexle_total : le_total (lexle ltA leB).
Proof.
  intros [a b] [a' b']. unfold lexle. simpl.
  destruct (ltA a a') eqn:H1, (ltA a' a) eqn:H2; simpl; try done.
  intros H. by apply leB_total.
Qed.

Lemma lexle_trans : le_trans (lexle ltA leB).
Proof.
  intros [a1 b1] [a2 b2] [a3 b3]. unfold lexle. simpl.
  destruct (ltA a1 a2) eqn:H12, (ltA a2 a3) eqn:H23; simpl.
  - by rewrite (ltA_trans _ _ _ H12 H23).
  - destruct (ltA a3 a2) eqn:H32; simpl; [done|]. intros _ Hb.
    destruct (ltA a1 a3) eqn:H13; [done|].
    by rewrite (ltA_negtrans _ _ _ H13 H32) in H12.
  - destruct (ltA a2 a1) eqn:H21; simpl; [done|]. intros Hb _.
    destruct (ltA a1 a3) eqn:H13; [done|].
    by rewrite (ltA_negtrans _ _ _ H21 H13) in H23.
  - destruct (ltA a2 a1) eqn:H21, (ltA a3 a2) eqn:H32; simpl; try done.
    intros Hb Hb'. rewrite (ltA_negtrans _ _ _ H32 H21). simpl.
    rewrite (leB_trans _ _ _ Hb Hb'). apply orb_true_r.
Qed.
End Lex.

Lemma string_leb_total : le_total String.leb.
Proof.
  intros x y H. destruct (String.leb_total x y) as [H'|H']; [congruence|done].
Qed.

Lemma string_leb_trans : le_trans String.leb.
Proof.
  intros x y z H1 H2. apply Is_true_true.
  apply Is_true_true in H1, H2.
  exact (transitivity (R := String.le) H1 H2).
Qed.

Lemma string_ltb_leb (x y : string) : String.ltb x y = negb (String.leb y x).
Proof.
  unfold String.ltb, String.leb. rewrite (String.compare_antisym x y).
  by destruct (String.compare y x).
Qed.

Lemma string_ltb_trans (x y z : string) :
  String.ltb x y = true -> String.ltb y z = true -> String.ltb x z = true.
Proof.
  rewrite !string_ltb_leb, !negb_true_iff. intros H1 H2.
  destruct (String.leb z x) eqn:H3; [|done].
  apply string_leb_total in H1.
  by rewrite (string_leb_trans _ _ _ H3 H1) in H2.
Qed.

Lemma string_ltb_negtrans (x y z : string) :
  String.ltb x y = false -> String.ltb y z = false -> String.ltb x z = false.
Proof.
  rewrite !string_ltb_leb, !negb_false_iff. intros H1 H2.
  exact (string_leb_trans _ _ _ H2 H1).
Qed.

Lemma Z_ltb_trans (x y z : Z) : (x <? y) = true -> (y <? z) = true -> (x <? z) = true.
Proof. rewrite !Z.ltb_lt. lia. Qed.

Lemma Z_ltb_negtrans (x y z : Z) :
  (x <? y) = false -> (y <? z) = false -> (x <? z) = false.
Proof. rewrite !Z.ltb_ge. lia. Qed.

Lemma allGamesLe_total : le_total Store.allGamesLe.
Proof.
  intros g h. unfold Store.allGamesLe, Store.keyLe.
  apply lexle_total. apply lexle_total. apply lexle_total. apply string_leb_total.
Qed.

Lemma allGamesLe_trans : le_trans Store.allGamesLe.
Proof.
  intros g h k. unfold Store.allGamesLe, Store.keyLe.
  apply lexle_trans; [exact Z_ltb_trans | exact Z_ltb_negtrans |].
  apply lexle_trans; [exact string_ltb_trans | exact string_ltb_negtrans |].
  apply lexle_trans;
    [exact Z_ltb_trans | exact Z_ltb_negtrans | exact string_leb_trans].
Qed.

Lemma startLe_total : le_total Store.startLe.
Proof. intros g h. unfold Store.startLe. rewrite Z.leb_gt, Z.leb_le. lia. Qed.

Lemma startLe_trans : le_trans Store.startLe.
Proof. intros g h k. unfold Store.startLe. rewrite !Z.leb_le. lia. Qed.

(** ** The filter evaluator *)

Section FilterFacts.
Import Store Filter Tokens.

Lemma getGamesByLeague_perm (l : string) (t : table) :
  getGamesByLeague l t ≡ₚ filter (fun g => league g = l) t.
Proof. apply orderBy_perm. Qed.

Lemma getGamesByLeague_league (l : string) (t : table) (g : game) :
  g ∈ getGamesByLeague l t -> league g = l.
Proof.
  rewrite getGamesByLeague_perm. intros H. by apply list_elem_of_filter in H as [? _].
Qed.

Lemma filter_all {A : Type} (P : A -> Prop) `{!forall x, Decision (P x)} (l : list A) :
  (forall x, x ∈ l -> P x) -> filter P l = l.
Proof.
  induction l as [|x l IH]; intros Hall; [done|].
  rewrite filter_cons_True by (apply Hall; left).
  f_equal. apply IH. intros y Hy. apply Hall. by right.
Qed.

Lemma filter_none {A : Type} (P : A -> Prop) `{!forall x, Decision (P x)} (l : list A) :
  (forall x, x ∈ l -> ~ P x) -> filter P l = [].
Proof.
  induction l as [|x l IH]; intros Hall; [done|].
  rewrite filter_cons_False by (apply Hall; left).
  apply IH. intros y Hy. apply Hall. by right.
Qed.

Lemma filter_twice {A : Type} (P : A -> Prop) `{!forall x, Decision (P x)} (l : list A) :
  filter P (filter P l) = filter P l.
Proof. apply filter_all. intros x Hx. by apply list_elem_of_filter in Hx as [? _]. Qed.

Lemma filter_swap {A : Type} (P Q : A -> Prop) `{!forall x, Decision (P x)}
    `{!forall x, Decision (Q x)} (l : list A) :
  filter P (filter Q l) = filter Q (filter P l).
Proof.
  induction l as [|x l IH]; [done|].
  rewrite !filter_cons.
  destruct (decide (Q x)), (decide (P x)); rewrite ?filter_cons;
    repeat case_decide; try done; by rewrite IH.
Qed.

Lemma filter_concatLeagues (Q : game -> Prop) `{!forall x, Decision (Q x)}
    (ls : list string) (t : table) :
  filter Q (concatLeagues ls t) =
  concat ((fun l => filter Q (getGamesByLeague l t)) <$> ls).
Proof.
  induction ls as [|l ls IH]; simpl; [done|]. by rewrite filter_app, IH.
Qed.

Lemma getGamesByLeague_answers (l : string) (t : table) :
  Engine.answersByLeague l t (getGamesByLeague l t).
Proof.
  split; [apply orderBy_perm|].
  apply orderBy_ordered; [exact startLe_total | exact startLe_trans].
Qed.

Lemma getAllGames_answers (t : table) : Engine.answersAll t (getAllGames t).
Proof.
  split; [apply orderBy_perm|].
  apply orderBy_ordered; [exact allGamesLe_total | exact allGamesLe_trans].
Qed.

Lemma concatLeagues_answers (ls : list string) (t : table) :
  Engine.concatAnswers t ls (concatLeagues ls t).
Proof.
  induction ls as [|l ls IH]; simpl; [constructor|].
  constructor; [apply getGamesByLeague_answers | done].
Qed.

(** The result of the evaluator, with rows of equal keys in storage
    order, is one of the results that it may return. *)
Lemma getFilteredGames_mayReturn (filters : list string) (t : table) :
  Engine.mayReturn filters t (getFilteredGames filters t).
Proof.
  unfold Engine.mayReturn, getFilteredGames.
  destruct (isEmpty filters); [apply getAllGames_answers|].
  destruct (negb (isEmpty (leagueFilters filters))).
  - exists (concatLeagues (leagueFilters filters) t).
    split; [apply concatLeagues_answers | done].
  - exists (getAllGames t). split; [apply getAllGames_answers | done].
Qed.

Lemma leagueFilters_keep (p : string -> bool) (filters : list string) :
  (forall f, isLeagueToken f = true -> p f = true) ->
  leagueFilters (keep p filters) = leagueFilters filters.
Proof.
  intros H. unfold leagueFilters, keep. rewrite list_filter_filter.
  apply list_filter_iff. intros f. split; [by intros [? _]|].
  intros Hf. split; [done|]. apply Is_true_true in Hf. apply Is_true_true. auto.
Qed.

Lemma stateFilters_keep (p : string -> bool) (filters : list string) :
  (forall f, isStateToken f = true -> p f = true) ->
  stateFilters (keep p filters) = stateFilters filters.
Proof.
  intros H. unfold stateFilters, keep. f_equal. rewrite list_filter_filter.
  apply list_filter_iff. intros f. split; [by intros [? _]|].
  intros Hf. split; [done|]. apply Is_true_true in Hf. apply Is_true_true. auto.
Qed.

End FilterFacts.

Section FilterClaims.
Import Store Filter Tokens Samples.

Lemma occurrences_perm {A : Type} `{EqDecision A} (x : A) (l k : list A) :
  l ≡ₚ k -> occurrences x l = occurrences x k.
Proof. intros Hp. unfold occurrences. by rewrite Hp. Qed.

Lemma occurrences_app {A : Type} `{EqDecision A} (x : A) (l k : list A) :
  occurrences x (l ++ k) = (occurrences x l + occurrences x k)%nat.
Proof. unfold occurrences. by rewrite filter_app, length_app. Qed.

Lemma occurrences_cons {A : Type} `{EqDecision A} (x y : A) (l : list A) :
  occurrences x (y :: l) =
  ((if decide (x = y) then 1 else 0) + occurrences x l)%nat.
Proof. unfold occurrences. rewrite filter_cons. by destruct (decide (x = y)). Qed.

Lemma occurrences_league (g : game) (l : string) (t : table) :
  occurrences g (getGamesByLeague l t) =
  if decide (league g = l) then occurrences g t else 0%nat.
Proof.
  rewrite (occurrences_perm _ _ _ (getGamesByLeague_perm l t)).
  unfold occurrences. rewrite filter_swap.
  case_decide as Hl.
  - f_equal. apply filter_all. intros h Hh.
    apply list_elem_of_filter in Hh as [<- _]. done.
  - rewrite filter_none; [done|].
    intros h Hh Hl'. apply list_elem_of_filter in Hh as [<- _]. done.
Qed.

Lemma occurrences_concatLeagues (g : game) (ls : list string) (t : table) :
  occurrences g (concatLeagues ls t) =
  (occurrences (league g) ls * occurrences g t)%nat.
Proof.
  induction ls as [|l ls IH]; simpl; [done|].
  rewrite occurrences_app, occurrences_league, IH, occurrences_cons.
  destruct (decide (league g = l)); simpl; lia.
Qed.

Lemma occurrences_leagueFilters (l : string) (filters : list string) :
  isLeagueToken l = true ->
  occurrences l (leagueFilters filters) = occurrences l filters.
Proof.
  intros Hl. unfold occurrences, leagueFilters. rewrite filter_swap.
  f_equal. apply filter_all. intros f Hf.
  apply list_elem_of_filter in Hf as [<- _]. by apply Is_true_true.
Qed.

Lemma occurrences_sublist {A : Type} `{EqDecision A} (x : A) (l k : list A) :
  l `sublist_of` k -> (occurrences x l <= occurrences x k)%nat.
Proof.
  unfold occurrences.
  induction 1 as [|y l k Hs IH|y l k Hs IH]; [done| |]; rewrite !filter_cons;
    destruct (decide (x = y)); simpl; lia.
Qed.

Lemma occurrences_pos {A : Type} `{EqDecision A} (x : A) (l : list A) :
  x ∈ l -> (0 < occurrences x l)%nat.
Proof.
  intros Hx. unfold occurrences.
  assert (Hin : x ∈ filter (x =.) l) by (by apply list_elem_of_filter).
  destruct (filter (x =.) l); [by apply elem_of_nil in Hin | simpl; lia].
Qed.

(** C1, at the input of the scenario with start times: with the
    selection [NFL] the evaluator returns the two NFL games ordered by
    start time alone, so the finished game that started earlier comes
    before the live one, while the unfiltered query puts the live game
    first. *)
Theorem league_filter_puts_live_game_second :
  getFilteredGames ["NFL"] threeGames = [nflPost; nflLive] /\
  liveFirst (getFilteredGames ["NFL"] threeGames) = false /\
  getFilteredGames [] threeGames = [nflLive; nbaPre; nflPost] /\
  liveFirst (getFilteredGames [] threeGames) = true.
Proof. by vm_compute. Qed.

(** C7 fails for a token with the state prefix that names no known
    state: [state_xyz] is not a recognized token, yet it empties the
    result, while the selection without it returns every game. *)
Lemma unknown_state_token_restricts :
  recognized "state_xyz" = false /\
  getFilteredGames ["state_xyz"] threeGames = [] /\
  getFilteredGames (keep recognized ["state_xyz"]) threeGames =
    [nflLive; nbaPre; nflPost] /\
  getFilteredGames ["state_xyz"] threeGames <>
    getFilteredGames (keep recognized ["state_xyz"]) threeGames.
Proof. by vm_compute. Qed.

(** C7, amended: every token that is neither a known league nor
    starts with the state prefix is ignored; evaluating a selection
    equals evaluating it with all those tokens removed. *)
Theorem unread_tokens_ignored (filters : list string) (t : table) :
  getFilteredGames filters t = getFilteredGames (keep read filters) t.
Proof.
  unfold getFilteredGames.
  rewrite (leagueFilters_keep read), (stateFilters_keep read);
    [| unfold read; by intros f -> ; rewrite orb_true_r
     | unfold read; by intros f ->].
  destruct filters as [|f filters]; [done|].
  destruct (keep read (f :: filters)) as [|f' kept] eqn:Hk; [|done].
  assert (Hl : leagueFilters (f :: filters) = []).
  { rewrite <- (leagueFilters_keep read (f :: filters)), Hk; [done|].
    unfold read. by intros f0 ->. }
  assert (Hs : stateFilters (f :: filters) = []).
  { rewrite <- (stateFilters_keep read (f :: filters)), Hk; [done|].
    unfold read. intros f0 ->. by rewrite orb_true_r. }
  simpl isEmpty at 1. cbv iota. by rewrite Hl, Hs.
Qed.


(** C10: when a known league token occurs n times in a selection, a
    game of that league that passes the state restriction occurs in the
    result n times as often as in the table; so with a repeated token
    the result holds a stored game more than once and is not a sub-list
    of the table. *)
Theorem repeated_league_token_repeats_games (filters : list string) (t : table)
    (g : game) :
  isLeagueToken (league g) = true ->
  league g ∈ filters ->
  passesState filters g ->
  occurrences g (getFilteredGames filters t) =
    (occurrences (league g) filters * occurrences g t)%nat /\
  (g ∈ t -> (2 <= occurrences (league g) filters)%nat ->
   (2 <= occurrences g (getFilteredGames filters t))%nat /\
   ~ getFilteredGames filters t `sublist_of` t).
Proof.
  intros Hknown Hin Hpass.
  assert (Hcount : occurrences g (getFilteredGames filters t) =
                   (occurrences (league g) filters * occurrences g t)%nat).
  { unfold getFilteredGames.
    destruct filters as [|f filters]; [by apply elem_of_nil in Hin|].
    simpl isEmpty at 1. cbv iota.
    assert (Hlf : league g ∈ leagueFilters (f :: filters)).
    { apply list_elem_of_filter. split; [by apply Is_true_true | done]. }
    destruct (leagueFilters (f :: filters)) as [|l lf] eqn:Hl;
      [by apply elem_of_nil in Hlf|].
    simpl isEmpty at 1. simpl negb. cbv iota.
    rewrite <- (occurrences_leagueFilters _ (f :: filters)), Hl by done.
    destruct Hpass as [Hnone|Hsome].
    - rewrite Hnone. simpl. apply (occurrences_concatLeagues g (l :: lf) t).
    - destruct (stateFilters (f :: filters)) as [|s sf] eqn:Hs;
        [by apply elem_of_nil in Hsome|].
      simpl isEmpty. simpl negb. cbv iota.
      rewrite <- (occurrences_concatLeagues g (l :: lf) t).
      unfold occurrences. rewrite filter_swap. f_equal.
      apply filter_all. intros h Hh.
      apply list_elem_of_filter in Hh as [<- _].
      unfold stateMatch, includes. by apply bool_decide_pack. }
  split; [exact Hcount|].
  intros Hg Htwice.
  pose proof (occurrences_pos g t Hg) as Hpos.
  split; [rewrite Hcount; nia|].
  intros Hsub%(occurrences_sublist g). rewrite Hcount in Hsub. nia.
Qed.

Lemma repeated_league_token_witness :
  occurrences nflLive (getFilteredGames ["NFL"; "NFL"] threeGames) =
    (occurrences "NFL" ["NFL"; "NFL"] * occurrences nflLive threeGames)%nat /\
  (2 <= occurrences nflLive (getFilteredGames ["NFL"; "NFL"] threeGames))%nat /\
  ~ getFilteredGames ["NFL"; "NFL"] threeGames `sublist_of` threeGames.
Proof.
  destruct (repeated_league_token_repeats_games ["NFL"; "NFL"] threeGames nflLive)
    as [Hcount Hdup].
  - reflexivity.
  - apply elem_of_cons. by left.
  - left. reflexivity.
  - split; [exact Hcount|]. apply Hdup.
    + apply elem_of_cons. by left.
    + vm_compute. lia.
Defined.

End FilterClaims.

(** ** The ingest loop *)

Section IngestFacts.
Import Store Ingest Batch.

Lemma ingestLoop_fail (u : upstream) (l : leagueRef) (ls : list leagueRef) (t : table) :
  leagueData u l = None ->
  ingestLoop u (l :: ls) t = mkOutcome t [scoreboardUrl u l] true.
Proof.
  unfold leagueData. intros H. simpl.
  destruct (axios_get u (scoreboardUrl u l)); [done|]. by rewrite H.
Qed.

Lemma ingestLoop_ok (u : upstream) (l : leagueRef) (ls : list leagueRef) (t : table)
    (cleanedData : list game) :
  leagueData u l = Some cleanedData ->
  ingestLoop u (l :: ls) t =
  let r := ingestLoop u ls (upsertAll cleanedData t) in
  mkOutcome (db r) (scoreboardUrl u l :: requested r) (errorLogged r).
Proof.
  unfold leagueData. intros H. simpl.
  destruct (axios_get u (scoreboardUrl u l)); [done|]. by rewrite H.
Qed.

(** The loop stops at the first league that fails. *)
Lemma ingestLoop_stops (u : upstream) (pre : list leagueRef) (k : leagueRef)
    (post : list leagueRef) (t : table) :
  (forall l, l ∈ pre -> is_Some (leagueData u l)) ->
  leagueData u k = None ->
  ingestLoop u (pre ++ k :: post) t =
  mkOutcome (db (ingestLoop u pre t))
    ((scoreboardUrl u <$> pre) ++ [scoreboardUrl u k]) true.
Proof.
  intros Hpre Hk. revert t.
  induction pre as [|l pre IH]; intros t.
  - simpl app. by rewrite ingestLoop_fail.
  - destruct (Hpre l) as [cleaned Hl]; [by left|].
    rewrite <- app_comm_cons, !(ingestLoop_ok _ _ _ _ _ Hl). cbv zeta.
    rewrite IH; [done|]. intros l' Hl'. apply Hpre. by right.
Qed.

Lemma normalize_league (n : string) (e : event) (g : game) :
  normalize n e = Some g -> league g = n.
Proof.
  unfold normalize. destruct (date e); simpl; [|done]. by intros [= <-].
Qed.

Lemma leagueData_league (u : upstream) (l : leagueRef) (cleaned : list game) :
  leagueData u l = Some cleaned -> forall g, g ∈ cleaned -> league g = name l.
Proof.
  unfold leagueData. destruct (axios_get u (scoreboardUrl u l)); [done|].
  intros H%mapM_Some g Hg.
  induction H as [|e g' es gs He _ IH]; [by apply elem_of_nil in Hg|].
  apply elem_of_cons in Hg as [->|Hg]; [by eapply normalize_league | by apply IH].
Qed.

(** An upsert leaves the rows of the other leagues as they are. *)
Lemma upsertGame_other (P : game -> Prop) `{!forall h, Decision (P h)}
    (g : game) (t : table) :
  (forall h, league h = league g -> ~ P h) ->
  filter P (upsertGame g t) = filter P t.
Proof.
  intros Hg. induction t as [|h t IH]; simpl.
  - by rewrite filter_cons_False by (by apply Hg).
  - destruct (sameKey g h) eqn:Hk.
    + apply andb_true_iff in Hk as [Hl%bool_decide_eq_true _].
      rewrite !filter_cons_False; [done| by apply Hg | by apply Hg].
    + rewrite !filter_cons. by rewrite IH.
Qed.

Lemma upsertAll_other (P : game -> Prop) `{!forall h, Decision (P h)}
    (gs : list game) (t : table) :
  (forall g, g ∈ gs -> forall h, league h = league g -> ~ P h) ->
  filter P (upsertAll gs t) = filter P t.
Proof.
  revert t. induction gs as [|g gs IH]; intros t Hgs; [done|].
  unfold upsertAll. simpl. fold (upsertAll gs (upsertGame g t)).
  rewrite IH by (intros g' Hg'; apply Hgs; by right).
  apply upsertGame_other. apply Hgs. by left.
Qed.

(** The loop touches only rows of the leagues it is given. *)
Lemma ingestLoop_other (P : game -> Prop) `{!forall h, Decision (P h)}
    (u : upstream) (ls : list leagueRef) (t : table) :
  (forall l, l ∈ ls -> forall h, league h = name l -> ~ P h) ->
  filter P (db (ingestLoop u ls t)) = filter P t.
Proof.
  revert t. induction ls as [|l ls IH]; intros t Hls; [done|].
  destruct (leagueData u l) as [cleaned|] eqn:Hl.
  - rewrite (ingestLoop_ok _ _ _ _ _ Hl). simpl.
    rewrite IH by (intros l' Hl'; apply Hls; by right).
    apply upsertAll_other. intros g Hg h Hh.
    rewrite (leagueData_league _ _ _ Hl g Hg) in Hh. revert Hh. apply Hls. by left.
  - by rewrite (ingestLoop_fail _ _ _ _ Hl).
Qed.

End IngestFacts.

Section IngestClaims.
Import Store Ingest Batch Samples.

(** C5 fails: with a batch of NFL then NBA in which the NFL fetch
    fails, the NBA scoreboard, which has an event, is never requested
    and no NBA row is upserted. *)
Lemma failing_league_aborts_batch :
  leagueData nflDown nfl = None /\
  leagueData nflDown nba = Some [nbaPre] /\
  ingestData nflDown [nfl; nba] [] =
    Some (mkOutcome [] ["https://espn.test/football/nfl/scoreboard"] true) /\
  ingestData nflDown [nba] [] =
    Some (mkOutcome [nbaPre] ["https://espn.test/basketball/nba/scoreboard"] false).
Proof. by vm_compute. Qed.

(** C5, amended: a fetch or normalisation failure for one league of a
    batch is caught and logged inside the ingest, whose call returns
    normally, and it ends the batch: the leagues before the failing one
    are fetched and upserted, the leagues after it are neither fetched
    nor upserted in that invocation. *)
Theorem failure_ends_batch (u : upstream) (pre : list leagueRef) (k : leagueRef)
    (post : list leagueRef) (t : table) :
  (forall l, l ∈ pre -> is_Some (leagueData u l)) ->
  leagueData u k = None ->
  exists r,
    ingestData u (pre ++ k :: post) t = Some r /\
    errorLogged r = true /\
    requested r = ((scoreboardUrl u <$> pre) ++ [scoreboardUrl u k])%list /\
    db r = db (ingestLoop u pre (clearNames (names (pre ++ k :: post)) t)) /\
    (forall l, l ∈ post -> name l ∉ names pre -> rowsOf (name l) (db r) = []).
Proof.
  intros Hpre Hk. unfold ingestData, clearTable.
  destruct (pre ++ k :: post) as [|l0 ls0] eqn:Hls; [by destruct pre|].
  rewrite <- Hls. simpl. rewrite (ingestLoop_stops _ _ _ _ _ Hpre Hk).
  eexists. split; [done|]. simpl. split; [done|]. split; [done|]. split; [done|].
  intros l Hl Hnot. unfold rowsOf.
  rewrite ingestLoop_other.
  - apply filter_none. intros g Hg Hgl.
    apply list_elem_of_filter in Hg as [Hg _]. apply Hg.
    rewrite Hgl. unfold names. apply list_elem_of_fmap. exists l. split; [done|].
    apply elem_of_app. right. by right.
  - intros l' Hl' h Hh Heq. apply Hnot. unfold names. rewrite <- Heq, Hh.
    apply list_elem_of_fmap. by exists l'.
Qed.

Lemma failure_ends_batch_witness :
  exists r,
    ingestData nflDown ([nba] ++ nfl :: [nba]) threeGames = Some r /\
    errorLogged r = true /\
    requested r = ((scoreboardUrl nflDown <$> [nba]) ++ [scoreboardUrl nflDown nfl])%list /\
    db r = db (ingestLoop nflDown [nba]
                 (clearNames (names ([nba] ++ nfl :: [nba])) threeGames)) /\
    (forall l, l ∈ [nba] -> name l ∉ names [nba] -> rowsOf (name l) (db r) = []).
Proof.
  apply (failure_ends_batch nflDown [nba] nfl [nba] threeGames).
  - intros l Hl. apply list_elem_of_singleton in Hl as ->. eexists. reflexivity.
  - reflexivity.
Defined.

(** C6 fails: with NFL rows stored and the NFL fetch failing, the
    ingest of NFL logs the error and leaves no NFL row. *)
Lemma fetch_failure_loses_stored_rows :
  rowsOf "NFL" threeGames = [nflLive; nflPost] /\
  leagueData nflDown nfl = None /\
  ingestData nflDown [nfl] threeGames =
    Some (mkOutcome [nbaPre] ["https://espn.test/football/nfl/scoreboard"] true) /\
  rowsOf "NFL" [nbaPre] = [].
Proof. by vm_compute. Qed.

(** C6, amended: when the upstream fetch for a league fails during an
    ingest cycle, the error is logged and the league is not re-ingested
    in that cycle; its previously stored rows were deleted by the bulk
    league-clear that opens the cycle, so the league is left without
    rows; the rows of the leagues outside the batch are unchanged. *)
Theorem fetch_failure_leaves_league_cleared (u : upstream) (pre : list leagueRef)
    (k : leagueRef) (post : list leagueRef) (t : table) :
  (forall l, l ∈ pre -> is_Some (leagueData u l)) ->
  leagueData u k = None ->
  name k ∉ names pre ->
  exists r,
    ingestData u (pre ++ k :: post) t = Some r /\
    errorLogged r = true /\
    rowsOf (name k) (db r) = [] /\
    rowsOutside (names (pre ++ k :: post)) (db r) =
      rowsOutside (names (pre ++ k :: post)) t.
Proof.
  intros Hpre Hk Hnot. unfold ingestData, clearTable.
  destruct (pre ++ k :: post) as [|l0 ls0] eqn:Hls; [by destruct pre|].
  rewrite <- Hls. simpl. rewrite (ingestLoop_stops _ _ _ _ _ Hpre Hk).
  eexists. split; [done|]. simpl. split; [done|]. split.
  - unfold rowsOf.
    rewrite ingestLoop_other.
    + apply filter_none. intros g Hg Hgk.
      apply list_elem_of_filter in Hg as [Hg _]. apply Hg.
      rewrite Hgk. unfold names. apply list_elem_of_fmap. exists k.
      split; [done|]. apply elem_of_app. right. by left.
    + intros l' Hl' h Hh Heq. apply Hnot. unfold names. rewrite <- Heq, Hh.
      apply list_elem_of_fmap. by exists l'.
  - unfold rowsOutside. rewrite ingestLoop_other.
    + apply filter_twice.
    + intros l' Hl' h Hh Hout. apply Hout. unfold names. rewrite Hh.
      apply list_elem_of_fmap. exists l'. split; [done|].
      apply elem_of_app. by left.
Qed.

Lemma fetch_failure_leaves_league_cleared_witness :
  exists r,
    ingestData nflDown ([nba] ++ nfl :: []) threeGames = Some r /\
    errorLogged r = true /\
    rowsOf (name nfl) (db r) = [] /\
    rowsOutside (names ([nba] ++ nfl :: [])) (db r) =
      rowsOutside (names ([nba] ++ nfl :: [])) threeGames.
Proof.
  apply (fetch_failure_leaves_league_cleared nflDown [nba] nfl [] threeGames).
  - intros l Hl. apply list_elem_of_singleton in Hl as ->. eexists. reflexivity.
  - reflexivity.
  - intros Hin. apply list_elem_of_singleton in Hin. discriminate Hin.
Defined.

End IngestClaims.

(** ** The connection registry *)

Section ApiClaims.
Import Store Filter Api.

(** C9: handling a filter request of a connection stores the
    requested selection for that connection, whatever was stored
    before, and sends one snapshot, to that connection; the stored
    selections of the other connections, the set of connections and the
    messages sent before are unchanged. *)
Theorem filter_request_is_point_update (ws : conn) (filters : option (list string))
    (t : table) (a : apiState) :
  let a' := onMessage ws (FilterRequest filters) t a in
  clientFilters a' !! ws = Some filters /\
  (forall c, c <> ws -> clientFilters a' !! c = clientFilters a !! c) /\
  outbox a' =
    (outbox a ++ [(ws, FilteredData (filtered filters t) filters
                         (length (filtered filters t)) false)])%list /\
  (forall c m, (c, m) ∈ drop (length (outbox a)) (outbox a') -> c = ws) /\
  clients a' = clients a.
Proof.
  simpl. split; [apply lookup_insert_eq|].
  split; [intros c Hc; by apply lookup_insert_ne|].
  split; [done|]. split; [|done].
  intros c m. rewrite drop_app_length. intros Hin.
  apply list_elem_of_singleton in Hin. congruence.
Qed.

End ApiClaims.

(** ** The league map of the daily run *)

Section LeagueMapFacts.
Import Store Sched.










End LeagueMapFacts.

(** ** The poll scheduler *)

Section SchedFacts.
Import Store Ingest Api Sched.


Lemma startFrequentPoll_registry (l : string) (s : sched) :
  scheduledLeagueJobs (startFrequentPoll l s) =
    <[l := nextJob s]> (delete l (scheduledLeagueJobs s)) /\
  liveJobs (startFrequentPoll l s) =
    <[nextJob s := l]>
      (match scheduledLeagueJobs s !! l with
       | Some old => delete old (liveJobs s)
       | None => liveJobs s
       end) /\
  nextJob (startFrequentPoll l s) = S (nextJob s) /\
  timers (startFrequentPoll l s) = timers s.
Proof.
  unfold startFrequentPoll.
  destruct (scheduledLeagueJobs s !! l) as [old|] eqn:Hold; simpl; [done|].
  split; [|done]. by rewrite (delete_id _ _ Hold).
Qed.

Lemma consistent_startFrequentPoll (l : string) (s : sched) :
  consistent s -> consistent (startFrequentPoll l s).
Proof.
  intros [Hreg Hnext].
  destruct (startFrequentPoll_registry l s) as (Hr & Hl & Hn & _).
  split.
  - intros l' j. rewrite Hr, Hl.
    destruct (decide (l' = l)) as [->|Hne].
    + rewrite lookup_insert_eq. split.
      * intros [= <-]. apply lookup_insert_eq.
      * intros Hj. destruct (decide (j = nextJob s)) as [->|Hjn]; [done|].
        rewrite lookup_insert_ne in Hj by done.
        destruct (scheduledLeagueJobs s !! l) as [old|] eqn:Hold.
        -- destruct (decide (j = old)) as [->|Hjo].
           ++ by rewrite lookup_delete_eq in Hj.
           ++ rewrite lookup_delete_ne in Hj by done.
              apply Hreg in Hj. congruence.
        -- apply Hreg in Hj. congruence.
    + rewrite lookup_insert_ne, lookup_delete_ne by done. split.
      * intros Hj. pose proof Hj as Hlive. apply Hreg in Hlive.
        rewrite lookup_insert_ne by (apply Hnext in Hlive; lia).
        destruct (scheduledLeagueJobs s !! l) as [old|] eqn:Hold; [|done].
        rewrite lookup_delete_ne; [done|]. intros <-.
        apply Hreg in Hold. congruence.
      * intros Hj. destruct (decide (j = nextJob s)) as [->|Hjn].
        { rewrite lookup_insert_eq in Hj. congruence. }
        rewrite lookup_insert_ne in Hj by done. apply Hreg.
        destruct (scheduledLeagueJobs s !! l) as [old|]; [|done].
        destruct (decide (j = old)) as [->|Hjo].
        -- by rewrite lookup_delete_eq in Hj.
        -- by rewrite lookup_delete_ne in Hj.
  - intros j l'. rewrite Hl, Hn. intros Hj.
    destruct (decide (j = nextJob s)) as [->|Hjn]; [lia|].
    rewrite lookup_insert_ne in Hj by done.
    assert (liveJobs s !! j = Some l') as Hlive.
    { destruct (scheduledLeagueJobs s !! l) as [old|]; [|done].
      destruct (decide (j = old)) as [->|Hjo].
      - by rewrite lookup_delete_eq in Hj.
      - by rewrite lookup_delete_ne in Hj. }
    apply Hnext in Hlive. lia.
Qed.



Lemma consistent_cancelSelf (job : nat) (l : string) (s : sched) :
  consistent s -> liveJobs s !! job = Some l -> consistent (cancelSelf job l s).
Proof.
  intros [Hreg Hnext] Hjob. split; simpl.
  - intros l' j. destruct (decide (l' = l)) as [->|Hne].
    + rewrite lookup_delete_eq. split; [done|].
      destruct (decide (j = job)) as [->|Hj].
      * by rewrite lookup_delete_eq.
      * rewrite lookup_delete_ne by done. intros Hlive.
        apply Hreg in Hlive, Hjob. congruence.
    + rewrite lookup_delete_ne by done.
      destruct (decide (j = job)) as [->|Hj].
      * rewrite lookup_delete_eq. split; [|done].
        intros Hl'. apply Hreg in Hl'. congruence.
      * rewrite lookup_delete_ne by done. apply Hreg.
  - intros j l' Hj. destruct (decide (j = job)) as [->|Hne].
    + by rewrite lookup_delete_eq in Hj.
    + rewrite lookup_delete_ne in Hj by done. by eapply Hnext.
Qed.

Lemma consistent_scheduleLeague (clock callClock : string -> Z) (s : sched)
    (entry : string * leagueInfo) :
  consistent s -> consistent (scheduleLeague clock callClock s entry).
Proof.
  intros Hs. destruct entry as [l i]. simpl.
  destruct (startsNow i (clock l)); [by apply consistent_startFrequentPoll|].
  unfold scheduleAt. by destruct (callClock l <=? pollStartTime i).
Qed.

Lemma consistent_fold (clock callClock : string -> Z) (m : leagueMapT) (s : sched) :
  consistent s -> consistent (foldl (scheduleLeague clock callClock) s m).
Proof.
  revert s. induction m as [|e m IH]; intros s Hs; [done|].
  simpl. by apply IH, consistent_scheduleLeague.
Qed.

Lemma consistent_runDailySchedule (clock callClock : string -> Z) (rows : list game) (s : sched) :
  consistent s -> consistent (runDailySchedule clock callClock rows s).
Proof.
  intros Hs. unfold runDailySchedule.
  destruct (isEmpty rows); [done | by apply consistent_fold].
Qed.

Lemma consistent_fireTimer (n : nat) (s : sched) :
  consistent s -> consistent (fireTimer n s).
Proof.
  intros Hs. unfold fireTimer. destruct (timers s !! n) as [[at_ l]|]; [|done].
  by apply consistent_startFrequentPoll.
Qed.

Lemma consistent_pollFiring (e : env) (l : string) (job : nat) (w : world) :
  consistent (jobs w) -> liveJobs (jobs w) !! job = Some l ->
  consistent (jobs (pollFiring e l job w)).
Proof.
  intros Hs Hjob. unfold pollFiring.
  destruct (firingIngest e l w) as [r|]; [|done].
  destruct (areAllGamesFinal _ _ _ _); simpl; [by apply consistent_cancelSelf | done].
Qed.

Lemma perform_tick (job : nat) (l : string) (w : world) (fs : list firing) :
  liveJobs (jobs w) !! job = Some l ->
  perform (Tick job) (mkProcess w fs) =
  Some (mkProcess w (fs ++ [mkFiring job l AwaitIngest])).
Proof. intros Hlive. unfold perform. cbn [current inflight]. by rewrite Hlive. Qed.

Lemma perform_advance_head (e : env) (f : firing) (w : world) :
  perform (Advance e 0) (mkProcess w [f]) =
  Some (mkProcess (advance e f w).1
          (match (advance e f w).2 with Some f' => [f'] | None => [] end)).
Proof. unfold perform. cbn [current inflight]. simpl lookup. cbn [mbind option_bind].
  by destruct (advance e f w).2. Qed.

Lemma advance_ingest (e : env) (job : nat) (l : string) (w : world) (r : outcome) :
  firingIngest e l w = Some r ->
  advance e (mkFiring job l AwaitIngest) w =
  (mkWorld (db r) (jobs w) (api w), Some (mkFiring job l AwaitBroadcast)).
Proof. intros Hr. unfold advance. cbn [firingStage firingLeague firingJob]. by rewrite Hr. Qed.

(** The pieces of a firing, run one after the other with nothing in
    between, are the firing run to its end. *)
Lemma firing_uninterrupted (e : env) (l : string) (job : nat) (w : world) :
  liveJobs (jobs w) !! job = Some l ->
  run [Tick job; Advance e 0; Advance e 0; Advance e 0; Advance e 0] (mkProcess w []) =
  Some (mkProcess (pollFiring e l job w) []).
Proof.
  intros Hlive. unfold pollFiring.
  assert (Hing : exists r, firingIngest e l w = Some r).
  { unfold firingIngest, ingestData. simpl. by eexists. }
  destruct Hing as [r Hr]. rewrite Hr.
  cbn [run]. rewrite (perform_tick job l w [] Hlive). cbn [mbind option_bind app].
  rewrite perform_advance_head, (advance_ingest e job l w r Hr).
  cbn [mbind option_bind fst snd].
  rewrite perform_advance_head. unfold advance at 1 2.
  cbn [firingStage firingLeague firingJob mbind option_bind fst snd games jobs api].
  rewrite perform_advance_head. unfold advance at 1 2.
  cbn [firingStage firingLeague firingJob mbind option_bind fst snd games jobs api].
  rewrite perform_advance_head. unfold advance.
  cbn [firingStage firingLeague firingJob mbind option_bind fst snd games jobs api].
  by destruct (areAllGamesFinal (dateOf e) (currentDay e) l (db r)).
Qed.

Lemma advance_jobs (e : env) (f : firing) (w : world) :
  jobs (advance e f w).1 =
  match firingStage f with
  | Answered true => cancelSelf (firingJob f) (firingLeague f) (jobs w)
  | _ => jobs w
  end.
Proof.
  unfold advance. destruct (firingStage f) as [| | |[|]]; try done.
Qed.

(** The operations keep the registry and the live jobs in agreement,
    except for the end of a firing whose job is no longer the live job of
    its league. *)
Lemma consistent_perform (o : op) (p p' : process) :
  perform o p = Some p' ->
  consistent (jobs (current p)) ->
  (forall e n f, o = Advance e n -> inflight p !! n = Some f ->
     firingStage f = Answered true ->
     liveJobs (jobs (current p)) !! firingJob f = Some (firingLeague f)) ->
  consistent (jobs (current p')).
Proof.
  intros Hp Hs Hlate. unfold perform in Hp.
  destruct o as [e clock callClock|n|job|e n|u ls|ws m].
  - apply (inj Some) in Hp. subst p'. by apply consistent_runDailySchedule.
  - destruct (timers (jobs (current p)) !! n); [|done].
    apply (inj Some) in Hp. subst p'. by apply consistent_fireTimer.
  - destruct (liveJobs (jobs (current p)) !! job); [|done].
    apply (inj Some) in Hp. by subst p'.
  - destruct (inflight p !! n) as [f|] eqn:Hf; [|done].
    apply (inj Some) in Hp. subst p'. cbn [current]. rewrite advance_jobs.
    destruct (firingStage f) as [| | |[|]] eqn:Hst; try done.
    apply consistent_cancelSelf; [done|]. by apply (Hlate e n f).
  - destruct (ingestData u ls (games (current p))); [|done].
    apply (inj Some) in Hp. by subst p'.
  - apply (inj Some) in Hp. by subst p'.
Qed.


End SchedFacts.

Section DailyRunFacts.
Import Store Sched.








End DailyRunFacts.

Section CheckFacts.
Import Store Ingest Api Sched Samples Scenes.


(** A firing whose fetch fails finds the league emptied by the clear of
    its own ingest, so its check answers yes and the job is cancelled. *)
Example failed_fetch_ends_polling :
  checks "NFL" 0 [envWith nflDown] nflPolling = [Some true] /\
  liveJobs (jobs (firings "NFL" 0 [envWith nflDown] nflPolling)) !! 0%nat = None.
Proof. split; reflexivity. Qed.

(** The end of a firing that outlives its job: when the poll of the
    league was restarted while the firing was waiting, the firing deletes
    the registry entry of the new job, which keeps running. *)
Example late_firing_forgets_new_job :
  let s := cancelSelf 0 "NFL" (jobs nflRestarted) in
  liveJobs s !! 1%nat = Some "NFL" /\ scheduledLeagueJobs s !! "NFL" = None.
Proof. split; reflexivity. Qed.

End CheckFacts.

Section SchedClaims.
Import Store Ingest Api Sched Samples Scenes.


Lemma firingIngest_some (e : env) (l : string) (w : world) :
  exists r, firingIngest e l w = Some r.
Proof. unfold firingIngest, ingestData. simpl. by eexists. Qed.

(** C3: while its job runs, the poll of a league fires at every tick
    and its check is answered; a firing whose check says that not all
    games are final leaves the scheduler as it is; the first firing whose
    check says that all are final is the last one: the job is cancelled
    and the registry has no entry for the league. *)
Theorem poll_cancels_itself_when_all_final (l : string) (job : nat) (es : list env)
    (w : world) :
  running job l (jobs w) ->
  let cs := checks l job es w in
  let w' := firings l job es w in
  (forall n, cs !! n = Some (Some true) -> length cs = S n) /\
  (None ∉ cs) /\
  (Some true ∉ cs ->
     length cs = length es /\ jobs w' = jobs w /\ running job l (jobs w')) /\
  (Some true ∈ cs ->
     liveJobs (jobs w') !! job = None /\ scheduledLeagueJobs (jobs w') !! l = None).
Proof.
  revert w. induction es as [|e es IH]; intros w Hrun; simpl.
  { split; [done|]. split; [apply not_elem_of_nil|]. split; [done|].
    by intros ?%elem_of_nil. }
  pose proof Hrun as [Hlive Hreg].
  unfold isLive. rewrite bool_decide_eq_true_2 by (by rewrite Hlive).
  unfold firingCheck, pollFiring.
  destruct (firingIngest_some e l w) as [r ->]. simpl.
  destruct (areAllGamesFinal (dateOf e) (currentDay e) l (db r)) eqn:Hdone.
  - assert (Hstop : forall w1, liveJobs (jobs w1) !! job = None ->
              checks l job es w1 = [] /\ firings l job es w1 = w1).
    { intros w1 Hw1. destruct es as [|e' es']; [done|]. simpl.
      unfold isLive. rewrite bool_decide_eq_false_2; [done|].
      rewrite Hw1. by intros [? ?]. }
    destruct (Hstop (mkWorld (db r) (cancelSelf job l (jobs w))
                       (broadcastUpdatedGames (isOpen e) (Some l) (db r) (api w))))
      as [-> ->]; [apply lookup_delete_eq|].
    split; [by intros [|n] Hn|]. split.
    { intros Hin. apply list_elem_of_singleton in Hin. done. }
    split.
    + intros Hno. destruct Hno. by left.
    + intros _. simpl. split; apply lookup_delete_eq.
  - destruct (IH (mkWorld (db r) (jobs w)
                    (broadcastUpdatedGames (isOpen e) (Some l) (db r) (api w))) Hrun)
      as (IH1 & IH2 & IH3 & IH4).
    split; [|split; [|split]].
    + intros [|n] Hn; [done|]. simpl in Hn. simpl. f_equal. by apply IH1.
    + intros Hin. apply elem_of_cons in Hin as [?|?]; [done|by apply IH2].
    + intros Hno. destruct IH3 as (Hlen & Hjobs & Hrun').
      * intros Hin. apply Hno. by right.
      * simpl in *. by rewrite Hlen.
    + intros Hin. apply IH4. apply elem_of_cons in Hin as [?|?]; [done|done].
Qed.

Lemma poll_cancels_itself_witness :
  checks "NFL" 0 [envWith (nflIs "pre"); envWith (nflIs "in"); envWith (nflIs "post");
                  envWith (nflIs "post")] nflPolling =
    [Some false; Some false; Some true] /\
  liveJobs (jobs (firings "NFL" 0
                    [envWith (nflIs "pre"); envWith (nflIs "in"); envWith (nflIs "post");
                     envWith (nflIs "post")] nflPolling)) !! 0%nat = None /\
  scheduledLeagueJobs (jobs (firings "NFL" 0
                    [envWith (nflIs "pre"); envWith (nflIs "in"); envWith (nflIs "post");
                     envWith (nflIs "post")] nflPolling)) !! "NFL" = None.
Proof.
  assert (Hrun : running 0 "NFL" (jobs nflPolling)) by (split; reflexivity).
  assert (Hcs : checks "NFL" 0
                  [envWith (nflIs "pre"); envWith (nflIs "in"); envWith (nflIs "post");
                   envWith (nflIs "post")] nflPolling =
                [Some false; Some false; Some true]) by (by vm_compute).
  split; [exact Hcs|].
  apply (poll_cancels_itself_when_all_final "NFL" 0
           [envWith (nflIs "pre"); envWith (nflIs "in"); envWith (nflIs "post");
            envWith (nflIs "post")] nflPolling Hrun).
  rewrite Hcs. apply elem_of_cons. right. apply elem_of_cons. right. by left.
Defined.

(** C4 fails at equality: in a daily run at [runTime] with one NFL game
    that starts exactly fifteen minutes later and is not live, the poll
    start time equals the current time, the test [pollStartTime < now] is
    false and no poll is started; the run asks the timer library for a
    one-shot job at the poll start time instead.  When the library reads
    the clock in the same millisecond the timer is registered; one
    millisecond later the date is behind the clock, nothing is registered,
    and the league has neither poll nor timer.  One millisecond earlier
    in the game's start, the poll is started. *)
Theorem poll_start_at_now_is_not_started :
  mapGet "NFL" (buildLeagueMap [kickoffInFifteen]) = Some (mkInfo 1900000 false) /\
  pollStartTime (mkInfo 1900000 false) = runTime /\
  startsNow (mkInfo 1900000 false) runTime = false /\
  runDailySchedule (fun _ => runTime) (fun _ => runTime) [kickoffInFifteen] initial =
    mkSched ∅ ∅ [(runTime, "NFL")] 0 /\
  runDailySchedule (fun _ => runTime) (fun _ => runTime + 1) [kickoffInFifteen] initial =
    initial /\
  runDailySchedule (fun _ => runTime) (fun _ => runTime) [kickoffSooner] initial =
    startFrequentPoll "NFL" initial.
Proof. repeat split; reflexivity. Qed.

End SchedClaims.


(** * Further properties of the code *)

(** ** The table: upsert and the ordered queries *)

Section StoreMore.
Import Store Keys.

Lemma sameKey_keyOf (g h : game) : sameKey g h = true <-> keyOf g = keyOf h.
Proof.
  unfold sameKey, keyOf. rewrite andb_true_iff, !bool_decide_eq_true.
  split; [intros [-> ->]; done | intros [= -> ->]; done].
Qed.

Lemma upsertGame_keys (g : game) (t : table) :
  keyOf <$> upsertGame g t =
  if decide (keyOf g ∈ keyOf <$> t) then keyOf <$> t else (keyOf <$> t) ++ [keyOf g].
Proof.
  induction t as [|h t IH]; [done|].
  change (upsertGame g (h :: t))
    with (if sameKey g h then g :: t else h :: upsertGame g t).
  rewrite (fmap_cons keyOf h t).
  destruct (sameKey g h) eqn:Hk.
  - apply sameKey_keyOf in Hk. rewrite fmap_cons, decide_True; [by rewrite Hk|].
    rewrite Hk. apply elem_of_cons. by left.
  - assert (Hne : keyOf g <> keyOf h).
    { intros Heq%sameKey_keyOf. congruence. }
    rewrite fmap_cons, IH.
    destruct (decide (keyOf g ∈ keyOf <$> t)) as [Hin|Hin].
    + rewrite decide_True; [done|]. apply elem_of_cons. by right.
    + rewrite decide_False; [done|]. intros [?|?]%elem_of_cons; done.
Qed.

Lemma upsertGame_elem (g h : game) (t : table) :
  uniqueKeys t ->
  h ∈ upsertGame g t <-> h = g \/ (h ∈ t /\ keyOf h <> keyOf g).
Proof.
  unfold uniqueKeys. induction t as [|k t IH]; simpl; intros Hnd.
  - rewrite list_elem_of_singleton. split; [by left|].
    intros [?|[Hin _]]; [done | by apply elem_of_nil in Hin].
  - apply NoDup_cons in Hnd as [Hk Hnd]. destruct (sameKey g k) eqn:Hgk.
    + apply sameKey_keyOf in Hgk. rewrite !elem_of_cons. split.
      * intros [->|Hin]; [by left|]. right. split; [by right|].
        intros Heq. apply Hk. rewrite <- Hgk, <- Heq.
        apply list_elem_of_fmap. by exists h.
      * intros [->|[[->|Hin] Hne]]; [by left | congruence | by right].
    + assert (Hne : keyOf g <> keyOf k).
      { intros Heq%sameKey_keyOf. congruence. }
      rewrite !elem_of_cons, (IH Hnd). split.
      * intros [->|[->|[Hin Hh]]]; [right; split; [by left | done] | by left |].
        right. split; [by right | done].
      * intros [->|[[->|Hin] Hh]]; [right; by left | by left |].
        right. right. done.
Qed.

(** X1: under the unique constraint on (league, external id), an upsert
    keeps the constraint, leaves the record as the only row with its key,
    and keeps every row with another key. *)
Theorem upsertGame_unique_and_found (g : game) (t : table) :
  uniqueKeys t ->
  uniqueKeys (upsertGame g t) /\
  g ∈ upsertGame g t /\
  (forall h, h ∈ upsertGame g t -> keyOf h = keyOf g -> h = g) /\
  (forall h, keyOf h <> keyOf g -> (h ∈ upsertGame g t <-> h ∈ t)).
Proof.
  intros Hu. split; [|split; [|split]].
  - unfold uniqueKeys. rewrite upsertGame_keys. case_decide as Hin; [done|].
    apply NoDup_app. split; [done|]. split; [|apply NoDup_singleton].
    intros k Hk Hk'. apply list_elem_of_singleton in Hk'. congruence.
  - apply upsertGame_elem; [done | by left].
  - intros h Hh Hkey. apply upsertGame_elem in Hh as [?|[_ ?]]; done.
  - intros h Hne. rewrite upsertGame_elem by done. split.
    + intros [->|[? _]]; done.
    + intros Hin. right. done.
Qed.

Lemma upsertGame_unique_and_found_witness :
  uniqueKeys Samples.threeGames /\
  uniqueKeys (upsertGame (Samples.row "NFL" "401" 2000 "post") Samples.threeGames) /\
  Samples.row "NFL" "401" 2000 "post" ∈
    upsertGame (Samples.row "NFL" "401" 2000 "post") Samples.threeGames.
Proof.
  assert (Hu : uniqueKeys Samples.threeGames).
  { unfold uniqueKeys. apply (bool_decide_unpack _). by vm_compute. }
  split; [exact Hu|].
  destruct (upsertGame_unique_and_found (Samples.row "NFL" "401" 2000 "post")
              Samples.threeGames Hu) as (H1 & H2 & _).
  split; [exact H1 | exact H2].
Defined.

(** X2: upserting a record twice is the same as upserting it once, and
    an upsert adds a row exactly when no row has the key of the record. *)
Theorem upsertGame_again (g : game) (t : table) :
  upsertGame g (upsertGame g t) = upsertGame g t /\
  length (upsertGame g t) =
    if decide (keyOf g ∈ keyOf <$> t) then length t else S (length t).
Proof.
  split.
  - induction t as [|h t IH]; simpl.
    + assert (Hgg : sameKey g g = true) by (by apply sameKey_keyOf). by rewrite Hgg.
    + destruct (sameKey g h) eqn:Hk; simpl.
      * assert (Hgg : sameKey g g = true) by (by apply sameKey_keyOf). by rewrite Hgg.
      * by rewrite Hk, IH.
  - rewrite <- (length_fmap keyOf (upsertGame g t)), upsertGame_keys.
    case_decide; rewrite ?length_app, !length_fmap; simpl; lia.
Qed.

End StoreMore.

Section OrderMore.
Context {A : Type}.
Variable le : A -> A -> bool.

(** Two ordered lists with the same elements are equal when the order
    tells their elements apart. *)
Lemma ordered_perm_eq (l k : list A) :
  ordered le l -> ordered le k -> l ≡ₚ k ->
  (forall x y, x ∈ l -> y ∈ l -> le x y = true -> le y x = true -> x = y) ->
  l = k.
Proof.
  intros Hl. revert k. induction Hl as [|x l Hl IH Hx]; intros k Hk Hp Hanti.
  - by apply Permutation_nil_l in Hp.
  - destruct Hk as [|y k Hk Hy].
    { by apply Permutation_nil_r in Hp. }
    rewrite Forall_forall in Hx, Hy.
    assert (Hxy : x = y).
    { assert (Hxin : x ∈ y :: k) by (rewrite <- Hp; left).
      assert (Hyin : y ∈ x :: l) by (rewrite Hp; left).
      apply elem_of_cons in Hxin as [?|Hxin]; [done|].
      apply elem_of_cons in Hyin as [?|Hyin]; [done|].
      apply Hanti; [left | by right | by apply Hx | by apply Hy]. }
    subst y. f_equal. apply IH; [done | by apply Permutation_cons_inv in Hp |].
    intros a b Ha Hb. apply Hanti; by right.
Qed.
End OrderMore.

Section LexMore.
Context {A B : Type}.
Variables (ltA : A -> A -> bool) (leB : B -> B -> bool).
Hypothesis ltA_asym : forall x y, ltA x y = true -> ltA y x = false.
Hypothesis ltA_tri : forall x y, ltA x y = false -> ltA y x = false -> x = y.
Hypothesis leB_antisym : forall x y, leB x y = true -> leB y x = true -> x = y.

Lemma lexle_antisym (x y : A * B) :
  lexle ltA leB x y = true -> lexle ltA leB y x = true -> x = y.
Proof.
  destruct x as [a b], y as [a' b']. unfold lexle. simpl.
  destruct (ltA a a') eqn:H1, (ltA a' a) eqn:H2; simpl; try done.
  - by rewrite (ltA_asym _ _ H1) in H2.
  - intros Hb Hb'. by rewrite (ltA_tri _ _ H1 H2), (leB_antisym _ _ Hb Hb').
Qed.
End LexMore.

Section QueriesMore.
Import Store Keys Tokens.

Lemma Z_ltb_asym (x y : Z) : (x <? y) = true -> (y <? x) = false.
Proof. rewrite Z.ltb_lt, Z.ltb_ge. lia. Qed.

Lemma Z_ltb_tri (x y : Z) : (x <? y) = false -> (y <? x) = false -> x = y.
Proof. rewrite !Z.ltb_ge. lia. Qed.

Lemma string_ltb_asym (x y : string) : String.ltb x y = true -> String.ltb y x = false.
Proof.
  rewrite !string_ltb_leb, negb_true_iff, negb_false_iff. apply string_leb_total.
Qed.

Lemma string_ltb_tri (x y : string) :
  String.ltb x y = false -> String.ltb y x = false -> x = y.
Proof.
  rewrite !string_ltb_leb, !negb_false_iff. intros H1 H2.
  by apply String.leb_antisym.
Qed.

Lemma allGamesLe_antisym (g h : game) :
  allGamesLe g h = true -> allGamesLe h g = true -> keyOf g = keyOf h.
Proof.
  unfold allGamesLe, keyLe. intros H1 H2.
  assert (Heq : allGamesKey g = allGamesKey h).
  { revert H1 H2. apply lexle_antisym; [exact Z_ltb_asym | exact Z_ltb_tri |].
    apply lexle_antisym; [exact string_ltb_asym | exact string_ltb_tri |].
    apply lexle_antisym; [exact Z_ltb_asym | exact Z_ltb_tri | exact String.leb_antisym]. }
  unfold allGamesKey in Heq. unfold keyOf. congruence.
Qed.

Lemma uniqueKeys_inj (t : table) (g h : game) :
  uniqueKeys t -> g ∈ t -> h ∈ t -> keyOf g = keyOf h -> g = h.
Proof.
  unfold uniqueKeys. induction t as [|k t IH]; intros Hnd Hg Hh Heq.
  - by apply elem_of_nil in Hg.
  - rewrite fmap_cons in Hnd. apply NoDup_cons in Hnd as [Hk Hnd].
    apply elem_of_cons in Hg as [->|Hg], Hh as [->|Hh]; [done | | | by apply IH].
    + destruct Hk. rewrite Heq. apply list_elem_of_fmap. by exists h.
    + destruct Hk. rewrite <- Heq. apply list_elem_of_fmap. by exists g.
Qed.

(** X3: when no two rows share a key, the result of the query for all
    games does not depend on the order in which the rows are stored. *)
Theorem getAllGames_storage_order (t t' : table) :
  uniqueKeys t -> t ≡ₚ t' -> getAllGames t = getAllGames t'.
Proof.
  intros Hu Hp. unfold getAllGames.
  apply (ordered_perm_eq allGamesLe).
  - apply orderBy_ordered; [exact allGamesLe_total | exact allGamesLe_trans].
  - apply orderBy_ordered; [exact allGamesLe_total | exact allGamesLe_trans].
  - by rewrite !orderBy_perm.
  - intros g h Hg Hh H1 H2. rewrite orderBy_perm in Hg, Hh.
    apply (uniqueKeys_inj t); [done..|]. by apply allGamesLe_antisym.
Qed.

Lemma getAllGames_storage_order_witness :
  getAllGames Samples.threeGames = getAllGames (reverse Samples.threeGames).
Proof.
  apply getAllGames_storage_order.
  - unfold uniqueKeys. apply (bool_decide_unpack _). by vm_compute.
  - by rewrite reverse_Permutation.
Defined.

Lemma allGamesLe_rank (g h : game) : allGamesLe g h = true -> liveRank g <= liveRank h.
Proof.
  unfold allGamesLe, keyLe, allGamesKey, lexle. simpl.
  intros [H|H]%orb_true_iff.
  - apply Z.ltb_lt in H. lia.
  - apply andb_true_iff in H as [H _]. apply negb_true_iff, Z.ltb_ge in H. lia.
Qed.

Lemma ordered_liveFirst (l : list game) : ordered allGamesLe l -> liveFirst l = true.
Proof.
  induction 1 as [|g l Hl IH Hg]; [done|].
  simpl. rewrite IH, andb_true_r.
  destruct (bool_decide (state g = "in")) eqn:Hin; [done|]. simpl.
  clear IH Hl. induction Hg as [|h l Hgh Hg IH]; [done|].
  simpl. rewrite IH, andb_true_r. apply allGamesLe_rank in Hgh.
  unfold liveRank in Hgh. rewrite Hin in Hgh.
  destruct (bool_decide (state h = "in")); [lia | done].
Qed.

(** X4: the query for all games returns every stored row exactly once,
    in the order of its key, and every live game before every game that
    is not live. *)
Theorem getAllGames_complete_live_first (t : table) :
  getAllGames t ≡ₚ t /\
  ordered allGamesLe (getAllGames t) /\
  liveFirst (getAllGames t) = true.
Proof.
  assert (Ho : ordered allGamesLe (getAllGames t)).
  { apply orderBy_ordered; [exact allGamesLe_total | exact allGamesLe_trans]. }
  split; [apply orderBy_perm|]. split; [done | by apply ordered_liveFirst].
Qed.

(** X5: the query for a league returns exactly the rows of that league,
    each once, by ascending start time; when no two rows of the league
    start at the same time, this is the only answer that the database can
    give to the statement. *)
Theorem getGamesByLeague_rows (l : string) (t : table) :
  getGamesByLeague l t ≡ₚ filter (fun g => league g = l) t /\
  ordered startLe (getGamesByLeague l t) /\
  (forall g, g ∈ getGamesByLeague l t <-> g ∈ t /\ league g = l) /\
  ((forall g h, g ∈ t -> h ∈ t -> league g = l -> league h = l ->
                start_time g = start_time h -> g = h) ->
   forall res, Engine.answersByLeague l t res -> res = getGamesByLeague l t).
Proof.
  assert (Ho : ordered startLe (getGamesByLeague l t)).
  { apply orderBy_ordered; [exact startLe_total | exact startLe_trans]. }
  split; [apply orderBy_perm|]. split; [done|].
  split.
  - intros g. unfold getGamesByLeague. rewrite orderBy_perm, list_elem_of_filter.
    by split; intros [? ?].
  - intros Hties res [Hperm Hres].
    apply (ordered_perm_eq startLe); [done | done | |].
    + rewrite Hperm. symmetry. apply orderBy_perm.
    + intros g h Hg Hh Hgh Hhg. rewrite Hperm in Hg, Hh.
      apply list_elem_of_filter in Hg as [Hgl Hg], Hh as [Hhl Hh].
      apply Hties; [done..|].
      unfold startLe in Hgh, Hhg. apply Z.leb_le in Hgh, Hhg. lia.
Qed.

Lemma getGamesByLeague_rows_witness :
  Engine.answersByLeague "NFL" Samples.threeGames [Samples.nflPost; Samples.nflLive] /\
  [Samples.nflPost; Samples.nflLive] = getGamesByLeague "NFL" Samples.threeGames.
Proof.
  assert (Hres : Engine.answersByLeague "NFL" Samples.threeGames
                   [Samples.nflPost; Samples.nflLive]).
  { split; [apply Permutation_swap|]. repeat constructor; reflexivity. }
  split; [exact Hres|].
  destruct (getGamesByLeague_rows "NFL" Samples.threeGames) as (_ & _ & _ & Honly).
  apply Honly; [|exact Hres].
  intros g h Hg Hh Hgl Hhl Hstart.
  repeat (apply elem_of_cons in Hg as [->|Hg]);
    repeat (apply elem_of_cons in Hh as [->|Hh]);
    try done; try (by apply elem_of_nil in Hg); by apply elem_of_nil in Hh.
Defined.

(** X6: the query of the daily run returns exactly the stored rows that
    start in the half-open day and whose state is none of post,
    completed, final, by ascending start time. *)
Theorem getNotFinalGamesToday_rows (currentDay nextDay : Z) (t : table) :
  (forall g, g ∈ getNotFinalGamesToday currentDay nextDay t <->
             g ∈ t /\ currentDay <= start_time g < nextDay /\
             state g ∉ excludedStates) /\
  ordered startLe (getNotFinalGamesToday currentDay nextDay t).
Proof.
  split.
  - intros g. unfold getNotFinalGamesToday.
    rewrite orderBy_perm, list_elem_of_filter.
    rewrite !andb_True, Is_true_true, Is_true_true, Z.leb_le, Z.ltb_lt.
    unfold notFinal, includes. rewrite negb_True, bool_decide_spec. tauto.
  - apply orderBy_ordered; [exact startLe_total | exact startLe_trans].
Qed.

End QueriesMore.

(** ** The filter evaluator: what a result contains *)

Section FilterMore.
Import Store Filter Tokens.

Lemma elem_of_concatLeagues (g : game) (ls : list string) (t : table) :
  g ∈ concatLeagues ls t <-> g ∈ t /\ league g ∈ ls.
Proof.
  induction ls as [|l ls IH]; simpl.
  - split; [by intros ?%elem_of_nil | by intros [_ ?%elem_of_nil]].
  - rewrite elem_of_app, IH, elem_of_cons. unfold getGamesByLeague.
    rewrite orderBy_perm, list_elem_of_filter. intuition congruence.
Qed.

Lemma isEmpty_nil {A : Type} (l : list A) : isEmpty l = true <-> l = [].
Proof. by destruct l. Qed.

(** X7: a game is in the result of a selection exactly when it is
    stored, its league is one of the league tokens if there are any, and
    its state is one of the state tokens if there are any; so every
    result holds stored games only. *)
Theorem getFilteredGames_contains (filters : list string) (t : table) (g : game) :
  g ∈ getFilteredGames filters t <->
  g ∈ t /\
  (leagueFilters filters = [] \/ league g ∈ leagueFilters filters) /\
  (stateFilters filters = [] \/ state g ∈ stateFilters filters).
Proof.
  unfold getFilteredGames.
  destruct filters as [|f filters].
  { simpl. unfold getAllGames. rewrite orderBy_perm. intuition. }
  simpl isEmpty at 1. cbv iota.
  destruct (leagueFilters (f :: filters)) as [|l lf] eqn:Hl;
    destruct (stateFilters (f :: filters)) as [|s sf] eqn:Hs; simpl isEmpty; simpl negb;
    cbv iota; unfold getAllGames;
    rewrite ?list_elem_of_filter, ?elem_of_concatLeagues, ?orderBy_perm;
    unfold stateMatch, includes; rewrite ?bool_decide_spec.
  - intuition.
  - split; [intuition|]. by intros (? & _ & [?|?]).
  - split; [intuition|]. by intros (? & [?|?] & _).
  - split; [intuition|]. by intros (? & [?|?] & [?|?]).
Qed.

(** X8: a selection without league tokens yields a sub-list of the
    query for all games, so its games come in the order of that query,
    live games first. *)
Theorem no_league_token_keeps_order (filters : list string) (t : table) :
  leagueFilters filters = [] ->
  getFilteredGames filters t `sublist_of` getAllGames t /\
  ordered allGamesLe (getFilteredGames filters t) /\
  liveFirst (getFilteredGames filters t) = true.
Proof.
  intros Hl.
  assert (Ho : ordered allGamesLe (getAllGames t)).
  { apply orderBy_ordered; [exact allGamesLe_total | exact allGamesLe_trans]. }
  assert (Hcase : getFilteredGames filters t = getAllGames t \/
                  getFilteredGames filters t =
                    filter (fun g => Is_true (stateMatch (stateFilters filters) g))
                      (getAllGames t)).
  { unfold getFilteredGames. rewrite Hl. simpl.
    destruct (isEmpty filters); [by left|].
    destruct (isEmpty (stateFilters filters)); simpl; [by left | by right]. }
  destruct Hcase as [-> | ->].
  - split; [done|]. split; [done | by apply ordered_liveFirst].
  - split; [apply sublist_filter|].
    assert (Hf := ordered_filter allGamesLe
                    (fun g => Is_true (stateMatch (stateFilters filters) g)) _ Ho).
    split; [done | by apply ordered_liveFirst].
Qed.

Lemma no_league_token_keeps_order_witness :
  getFilteredGames ["state_pre"; "state_in"] Samples.threeGames
    `sublist_of` getAllGames Samples.threeGames /\
  ordered allGamesLe (getFilteredGames ["state_pre"; "state_in"] Samples.threeGames) /\
  liveFirst (getFilteredGames ["state_pre"; "state_in"] Samples.threeGames) = true.
Proof.
  apply (no_league_token_keeps_order ["state_pre"; "state_in"] Samples.threeGames).
  reflexivity.
Defined.

End FilterMore.

(** ** The connection registry and the broadcast *)

Section ApiMore.
Import Store Filter Api ApiMore.

(** A loop of sends whose messages do not depend on what was sent adds
    one message per target, in order, and changes nothing else. *)
Lemma foldl_send (g : apiState -> conn -> outMsg) (cs : list conn) (a : apiState) :
  (forall b c m c', g (send c m b) c' = g b c') ->
  foldl (fun acc c => send c (g acc c) acc) a cs =
  mkApi (wss a) (clients a) (clientFilters a) (outbox a ++ ((fun c => (c, g a c)) <$> cs)).
Proof.
  intros Hg. revert a. induction cs as [|c cs IH]; intros a; simpl.
  - rewrite app_nil_r. by destruct a.
  - rewrite IH. simpl. rewrite <- app_assoc. simpl. f_equal. f_equal. f_equal.
    apply list_fmap_ext. intros _ c' _. by rewrite Hg.
Qed.

Lemma broadcastUpdatedGames_eq (isOpen : conn -> bool)
    (optionalLeague : option string) (t : table) (a : apiState) :
  broadcastUpdatedGames isOpen optionalLeague t a =
  if negb (wss a) || isEmpty (clients a) then a
  else
    let targets := filter (fun c => Is_true (isOpen c)) (clients a) in
    mkApi (wss a) (clients a) (clientFilters a)
      (outbox a ++ notices optionalLeague targets ++ refreshes t a targets).
Proof.
  unfold broadcastUpdatedGames.
  destruct (negb (wss a) || isEmpty (clients a)); [done|]. cbv zeta.
  rewrite (foldl_send (fun _ _ => GamesUpdated (leagueOrAll optionalLeague))) by done.
  rewrite (foldl_send (fun acc c =>
             FilteredData (getFilteredGames (currentFiltersOf acc c) t)
               (Some (currentFiltersOf acc c))
               (length (getFilteredGames (currentFiltersOf acc c) t)) true)) by done.
  simpl. by rewrite <- app_assoc.
Qed.

(** X9: a broadcast leaves the stored selections and the set of clients
    as they are; it sends nothing when the server is not set up or no
    client is connected, and otherwise sends, to the connected clients
    that are open and to nobody else, first one notice each and then one
    snapshot each, computed from that client's own stored selection, with
    the count of its games and the refresh mark. *)
Theorem broadcastUpdatedGames_messages (isOpen : conn -> bool)
    (optionalLeague : option string) (t : table) (a : apiState) :
  let a' := broadcastUpdatedGames isOpen optionalLeague t a in
  let targets := filter (fun c => Is_true (isOpen c)) (clients a) in
  clients a' = clients a /\
  clientFilters a' = clientFilters a /\
  outbox a' =
    outbox a ++
    (if negb (wss a) || isEmpty (clients a) then []
     else notices optionalLeague targets ++ refreshes t a targets).
Proof.
  cbv zeta. rewrite broadcastUpdatedGames_eq.
  destruct (negb (wss a) || isEmpty (clients a)); simpl; [|done].
  by rewrite app_nil_r.
Qed.

(** X10: a connection that was closed gets no message from a later
    broadcast, whatever it still reports about its socket. *)
Theorem closed_connection_gets_no_broadcast (isOpen : conn -> bool)
    (optionalLeague : option string) (t : table) (ws : conn) (a : apiState) (m : outMsg) :
  (ws, m) ∉ drop (length (outbox a))
              (outbox (broadcastUpdatedGames isOpen optionalLeague t (onClose ws a))).
Proof.
  rewrite broadcastUpdatedGames_eq.
  destruct (negb (wss (onClose ws a)) || isEmpty (clients (onClose ws a))).
  - simpl. rewrite drop_all. apply not_elem_of_nil.
  - cbv zeta. simpl. rewrite drop_app_length.
    intros Hin. apply elem_of_app in Hin.
    assert (Hnot : ws ∉ filter (fun c => Is_true (isOpen c)) (setDelete ws (clients a))).
    { intros Hws. apply list_elem_of_filter in Hws as [_ Hws].
      unfold setDelete in Hws. by apply list_elem_of_filter in Hws as [? _]. }
    destruct Hin as [Hin|Hin]; apply list_elem_of_fmap in Hin as (c & Heq & Hc);
      injection Heq as -> _; done.
Qed.

Lemma registered_send (ws : conn) (m : outMsg) (a : apiState) :
  registered a -> registered (send ws m a).
Proof. done. Qed.

Lemma registered_step (t : table) (a a' : apiState) :
  apiStep t a a' -> registered a -> registered a'.
Proof.
  intros Hstep [Hnd Hreg]. destruct Hstep as [ws a Hnew|ws m a Hin|ws a|isOpen l a].
  - split; simpl.
    + unfold setAdd. rewrite bool_decide_eq_false_2 by done.
      apply NoDup_app. split; [done|]. split; [|apply NoDup_singleton].
      intros c Hc Hc'. apply list_elem_of_singleton in Hc'. congruence.
    + intros c. unfold setAdd. rewrite bool_decide_eq_false_2 by done.
      rewrite elem_of_app, list_elem_of_singleton.
      destruct (decide (c = ws)) as [->|Hne].
      * rewrite lookup_insert_eq. split; [by eexists | by right].
      * rewrite lookup_insert_ne by done. rewrite <- Hreg. intuition.
  - destruct m; try (by split); simpl. split; [done|]. simpl. intros c.
    destruct (decide (c = ws)) as [->|Hne].
    + rewrite lookup_insert_eq. split; [by eexists | done].
    + rewrite lookup_insert_ne by done. apply Hreg.
  - split; simpl.
    + unfold setDelete. by apply NoDup_filter.
    + intros c. unfold setDelete. rewrite list_elem_of_filter.
      destruct (decide (c = ws)) as [->|Hne].
      * rewrite lookup_delete_eq. split; [by intros [? _] | by intros [? ?]].
      * rewrite lookup_delete_ne by done. rewrite <- Hreg. intuition.
  - rewrite broadcastUpdatedGames_eq.
    destruct (negb (wss a) || isEmpty (clients a)); by split.
Qed.

Lemma registered_reachable (a : apiState) : apiReachable a -> registered a.
Proof.
  induction 1 as [|t a a' _ IH Hstep].
  - split; [constructor|]. intros c. simpl. rewrite lookup_empty. split.
    + by intros ?%elem_of_nil.
    + by intros [? ?].
  - by eapply registered_step.
Qed.

Lemma registered_size (a : apiState) :
  registered a -> size (clientFilters a) = length (clients a).
Proof.
  intros [Hnd Hreg].
  assert (Hdom : dom (clientFilters a) = list_to_set (C := gset conn) (clients a)).
  { apply set_eq. intros c. rewrite elem_of_dom, elem_of_list_to_set.
    symmetry. apply Hreg. }
  rewrite <- size_dom, Hdom. by apply size_list_to_set.
Qed.

(** X11: from the start of the server, through connections, messages
    of connected clients, disconnections and broadcasts, every connected
    client is listed once and has exactly one stored selection, and no
    selection is stored for anybody else; so there are as many stored
    selections as connected clients. *)
Theorem registry_one_selection_per_client (a : apiState) :
  apiReachable a -> registered a /\ size (clientFilters a) = length (clients a).
Proof.
  intros Hreach. pose proof (registered_reachable a Hreach) as Hreg.
  split; [done | by apply registered_size].
Qed.

Lemma registry_one_selection_per_client_witness :
  registered (onMessage 7%nat (FilterRequest (Some ["NFL"])) Samples.threeGames
                (onConnection 7%nat started)) /\
  size (clientFilters (onMessage 7%nat (FilterRequest (Some ["NFL"])) Samples.threeGames
                         (onConnection 7%nat started))) =
  length (clients (onMessage 7%nat (FilterRequest (Some ["NFL"])) Samples.threeGames
                     (onConnection 7%nat started))).
Proof.
  apply registry_one_selection_per_client.
  apply (api_next Samples.threeGames (onConnection 7%nat started)).
  - apply (api_next [] started); [apply api_init|].
    apply api_connect. apply not_elem_of_nil.
  - apply api_message. simpl. apply list_elem_of_singleton. reflexivity.
Defined.

Lemma countOk_step (t : table) (a a' : apiState) :
  apiStep t a a' -> Forall countOk (outbox a) -> Forall countOk (outbox a').
Proof.
  intros Hstep Hok. destruct Hstep as [ws a Hnew|ws m a Hin|ws a|isOpen l a].
  - simpl. apply Forall_app. split; [done|]. by repeat constructor.
  - destruct m; simpl; apply Forall_app; (split; [done|]); by repeat constructor.
  - done.
  - rewrite broadcastUpdatedGames_eq.
    destruct (negb (wss a) || isEmpty (clients a)); [done|]. simpl.
    apply Forall_app. split; [done|]. apply Forall_app. split.
    + apply Forall_fmap, Forall_forall. by intros c _.
    + apply Forall_fmap, Forall_forall. by intros c _.
Qed.

(** X12: every snapshot the server has sent, as a reply or as a
    refresh, carries as count the number of games in its data. *)
Theorem snapshots_carry_their_count (a : apiState) :
  apiReachable a -> Forall countOk (outbox a).
Proof.
  induction 1 as [|t a a' _ IH Hstep]; [constructor|]. by eapply countOk_step.
Qed.

Lemma snapshots_carry_their_count_witness :
  Forall countOk
    (outbox (broadcastUpdatedGames (fun _ => true) (Some "NFL") Samples.threeGames
               (onConnection 7%nat started))).
Proof.
  apply snapshots_carry_their_count.
  apply (api_next Samples.threeGames (onConnection 7%nat started)).
  - apply (api_next [] started); [apply api_init|].
    apply api_connect. apply not_elem_of_nil.
  - apply api_broadcast.
Defined.

(** X13: the connection statistics throw exactly when some stored
    selection is undefined, which is what a filter request without a
    filters field stores. *)
Theorem getConnectionStats_throws (a : apiState) :
  getConnectionStats a = None <-> exists c, clientFilters a !! c = Some None.
Proof.
  unfold getConnectionStats.
  destruct (mapM _ (map_to_list (clientFilters a))) as [flags|] eqn:Hm; simpl.
  - split; [done|]. intros [c Hc].
    apply mapM_Some_1 in Hm. apply elem_of_map_to_list in Hc.
    apply list_elem_of_lookup in Hc as [i Hi].
    destruct (Forall2_lookup_l _ _ _ _ _ Hm Hi) as (b & _ & Hb). done.
  - split; [|done]. intros _. apply mapM_None_1, Exists_exists in Hm.
    destruct Hm as ([c stored] & Hin & Hnone). exists c.
    apply elem_of_map_to_list in Hin. destruct stored; [done | exact Hin].
Qed.

(** X14: in a reachable registry whose statistics can be read, the
    total is the number of connected clients, which is the number of
    stored selections, and the number of clients with filters does not
    exceed it. *)
Theorem getConnectionStats_bounds (a : apiState) (s : stats) :
  apiReachable a -> getConnectionStats a = Some s ->
  total_clients s = length (clients a) /\
  total_clients s = size (clientFilters a) /\
  (clients_with_filters s <= total_clients s)%nat.
Proof.
  intros Hreach Hs.
  pose proof (registered_size a (registered_reachable a Hreach)) as Hsize.
  unfold getConnectionStats in Hs.
  destruct (mapM _ (map_to_list (clientFilters a))) as [flags|] eqn:Hm; [|done].
  injection Hs as <-. simpl.
  apply mapM_Some_1, Forall2_length in Hm. rewrite length_map_to_list in Hm.
  split; [done|]. split; [done|].
  rewrite <- Hsize, Hm. apply length_filter.
Qed.

Lemma getConnectionStats_bounds_witness :
  getConnectionStats (onConnection 7%nat started) = Some (mkStats 1 0) /\
  (clients_with_filters (mkStats 1 0) <= total_clients (mkStats 1 0))%nat.
Proof.
  assert (Hs : getConnectionStats (onConnection 7%nat started) = Some (mkStats 1 0))
    by (by vm_compute).
  split; [exact Hs|].
  apply (getConnectionStats_bounds (onConnection 7%nat started) (mkStats 1 0)).
  - apply (api_next [] started); [apply api_init|].
    apply api_connect. apply not_elem_of_nil.
  - exact Hs.
Defined.

End ApiMore.

(** ** The ingest: what a cycle stores *)

Section IngestMore.
Import Store Keys Ingest Batch.

Lemma ingestData_cons (u : upstream) (l : leagueRef) (ls : list leagueRef) (t : table) :
  ingestData u (l :: ls) t =
  Some (ingestLoop u (l :: ls) (clearNames (names (l :: ls)) t)).
Proof. reflexivity. Qed.

Lemma ingestLoop_all_ok (u : upstream) (ls : list leagueRef) (t : table) :
  (forall l, l ∈ ls -> is_Some (leagueData u l)) ->
  errorLogged (ingestLoop u ls t) = false /\
  requested (ingestLoop u ls t) = scoreboardUrl u <$> ls.
Proof.
  revert t. induction ls as [|l ls IH]; intros t Hok; [done|].
  destruct (Hok l) as [cleaned Hl]; [by left|].
  rewrite (ingestLoop_ok _ _ _ _ _ Hl). simpl.
  destruct (IH (upsertAll cleaned t)) as [-> ->]; [|done].
  intros l' Hl'. apply Hok. by right.
Qed.

Lemma clearNames_loop (u : upstream) (ls : list leagueRef) (t : table) :
  clearNames (names ls) (db (ingestLoop u ls (clearNames (names ls) t))) =
  clearNames (names ls) t.
Proof.
  unfold clearNames. rewrite ingestLoop_other.
  - apply filter_twice.
  - intros l Hl h Hh Hout. apply Hout. rewrite Hh. unfold names.
    apply list_elem_of_fmap. by exists l.
Qed.

(** X15: when the fetch and the normalisation succeed for every league
    of a batch, the ingest requests the scoreboard of each league once,
    in the order of the batch, and logs no error. *)
Theorem ingest_fetches_every_league (u : upstream) (ls : list leagueRef) (t : table) :
  ls <> [] ->
  (forall l, l ∈ ls -> is_Some (leagueData u l)) ->
  exists r, ingestData u ls t = Some r /\
            errorLogged r = false /\
            requested r = scoreboardUrl u <$> ls.
Proof.
  intros Hne Hok. destruct ls as [|l0 ls0]; [done|].
  rewrite ingestData_cons. eexists. split; [done|].
  by apply ingestLoop_all_ok.
Qed.

Lemma ingest_fetches_every_league_witness :
  exists r, ingestData (Samples.nflIs "in") [Samples.nfl; Samples.nfl] [] = Some r /\
            errorLogged r = false /\
            requested r = scoreboardUrl (Samples.nflIs "in") <$> [Samples.nfl; Samples.nfl].
Proof.
  apply ingest_fetches_every_league; [done|].
  intros l Hl. apply elem_of_cons in Hl as [->|Hl];
    [|apply list_elem_of_singleton in Hl as ->]; eexists; reflexivity.
Defined.

(** X16: an ingest is safely repeated: run again on the table it left,
    against the same upstream answers, it leaves the same table, requests
    the same scoreboards and logs the same. *)
Theorem ingest_repeatable (u : upstream) (ls : list leagueRef) (t : table) (r : outcome) :
  ingestData u ls t = Some r -> ingestData u ls (db r) = Some r.
Proof.
  destruct ls as [|l0 ls0]; [done|].
  rewrite !ingestData_cons. intros Hr. apply (inj Some) in Hr. subst r.
  by rewrite (clearNames_loop u (l0 :: ls0) t).
Qed.

Lemma ingest_repeatable_witness :
  ingestData Samples.nflDown [Samples.nba; Samples.nfl] Samples.threeGames =
    Some (mkOutcome [Samples.nbaPre]
            ["https://espn.test/basketball/nba/scoreboard";
             "https://espn.test/football/nfl/scoreboard"] true) /\
  ingestData Samples.nflDown [Samples.nba; Samples.nfl] [Samples.nbaPre] =
    Some (mkOutcome [Samples.nbaPre]
            ["https://espn.test/basketball/nba/scoreboard";
             "https://espn.test/football/nfl/scoreboard"] true).
Proof.
  assert (Hfirst : ingestData Samples.nflDown [Samples.nba; Samples.nfl]
                     Samples.threeGames =
                   Some (mkOutcome [Samples.nbaPre]
                           ["https://espn.test/basketball/nba/scoreboard";
                            "https://espn.test/football/nfl/scoreboard"] true))
    by reflexivity.
  split; [exact Hfirst|].
  exact (ingest_repeatable Samples.nflDown [Samples.nba; Samples.nfl] Samples.threeGames
           _ Hfirst).
Defined.

(** X17: whatever the upstream answers, an ingest changes only rows of
    the leagues of its batch: the rows of every other league are the same
    rows in the same order afterwards, and every row it leaves was either
    stored before or belongs to a league of the batch. *)
Theorem ingest_touches_only_its_batch (u : upstream) (ls : list leagueRef) (t : table)
    (r : outcome) :
  ingestData u ls t = Some r ->
  rowsOutside (names ls) (db r) = rowsOutside (names ls) t /\
  (forall g, g ∈ db r -> g ∈ t \/ league g ∈ names ls).
Proof.
  destruct ls as [|l0 ls0]; [done|].
  rewrite ingestData_cons. intros Hr. apply (inj Some) in Hr. subst r.
  assert (Hout : rowsOutside (names (l0 :: ls0))
                   (db (ingestLoop u (l0 :: ls0) (clearNames (names (l0 :: ls0)) t))) =
                 rowsOutside (names (l0 :: ls0)) t).
  { apply (clearNames_loop u (l0 :: ls0) t). }
  split; [exact Hout|]. intros g Hg.
  destruct (decide (league g ∈ names (l0 :: ls0))) as [?|Hnot]; [by right|]. left.
  assert (Hin : g ∈ rowsOutside (names (l0 :: ls0)) t).
  { rewrite <- Hout. by apply list_elem_of_filter. }
  by apply list_elem_of_filter in Hin as [_ ?].
Qed.

Lemma ingest_touches_only_its_batch_witness :
  rowsOutside (names [Samples.nfl]) [Samples.nbaPre] =
    rowsOutside (names [Samples.nfl]) Samples.threeGames /\
  (forall g, g ∈ [Samples.nbaPre] -> g ∈ Samples.threeGames \/
                                     league g ∈ names [Samples.nfl]).
Proof.
  apply (ingest_touches_only_its_batch Samples.nflDown [Samples.nfl] Samples.threeGames
           (mkOutcome [Samples.nbaPre] ["https://espn.test/football/nfl/scoreboard"] true)).
  reflexivity.
Defined.

Lemma rowsOf_upsertGame (n : string) (g : game) (t : table) :
  league g = n -> rowsOf n (upsertGame g t) = upsertGame g (rowsOf n t).
Proof.
  intros Hg. unfold rowsOf. induction t as [|h t IH]; simpl.
  - by rewrite filter_cons_True.
  - destruct (sameKey g h) eqn:Hk.
    + assert (Hh : league h = n).
      { apply andb_true_iff in Hk as [Hl%bool_decide_eq_true _]. congruence. }
      rewrite !filter_cons_True by done. simpl. by rewrite Hk.
    + rewrite !filter_cons. destruct (decide (league h = n)); [|done].
      simpl. by rewrite Hk, IH.
Qed.

Lemma rowsOf_upsertAll (n : string) (gs : list game) (t : table) :
  (forall g, g ∈ gs -> league g = n) ->
  rowsOf n (upsertAll gs t) = upsertAll gs (rowsOf n t).
Proof.
  revert t. induction gs as [|g gs IH]; intros t Hgs; [done|].
  unfold upsertAll. simpl. fold (upsertAll gs (upsertGame g t)).
  fold (upsertAll gs (upsertGame g (rowsOf n t))).
  rewrite IH by (intros h Hh; apply Hgs; by right).
  rewrite rowsOf_upsertGame; [done|]. apply Hgs. by left.
Qed.

Lemma upsertGame_fresh (g : game) (t : table) :
  keyOf g ∉ keyOf <$> t -> upsertGame g t = t ++ [g].
Proof.
  induction t as [|h t IH]; intros Hg; simpl; [done|].
  rewrite fmap_cons in Hg. apply not_elem_of_cons in Hg as [Hne Hg].
  destruct (sameKey g h) eqn:Hk; [by apply sameKey_keyOf in Hk|].
  by rewrite IH.
Qed.

Lemma upsertAll_fresh (gs : list game) (t : table) :
  NoDup (keyOf <$> t ++ gs) -> upsertAll gs t = t ++ gs.
Proof.
  revert t. induction gs as [|g gs IH]; intros t Hnd.
  - by rewrite app_nil_r.
  - unfold upsertAll. simpl. fold (upsertAll gs (upsertGame g t)).
    assert (Hg : keyOf g ∉ keyOf <$> t).
    { rewrite fmap_app, fmap_cons in Hnd. apply NoDup_app in Hnd as (_ & Hd & _).
      intros Hin. apply (Hd _ Hin). left. }
    rewrite (upsertGame_fresh g t Hg), IH; [by rewrite <- app_assoc|].
    by rewrite <- app_assoc.
Qed.

Lemma ingestLoop_snapshot (u : upstream) (ls : list leagueRef) (t : table)
    (l : leagueRef) (cleaned : list game) :
  (forall l', l' ∈ ls -> is_Some (leagueData u l')) ->
  NoDup (names ls) -> l ∈ ls ->
  leagueData u l = Some cleaned -> NoDup (keyOf <$> cleaned) ->
  rowsOf (name l) t = [] ->
  rowsOf (name l) (db (ingestLoop u ls t)) = cleaned.
Proof.
  revert t. induction ls as [|l' ls IH]; intros t Hok Hnd Hin Hl Hkeys Hempty.
  { by apply elem_of_nil in Hin. }
  unfold names in Hnd. rewrite fmap_cons in Hnd. apply NoDup_cons in Hnd as [Hl' Hnd].
  destruct (Hok l') as [cleaned' Hc']; [by left|].
  rewrite (ingestLoop_ok _ _ _ _ _ Hc'). simpl.
  apply elem_of_cons in Hin as [->|Hin].
  - assert (Hc : cleaned' = cleaned) by congruence. subst cleaned'.
    unfold rowsOf. rewrite ingestLoop_other.
    + fold (rowsOf (name l') (upsertAll cleaned t)).
      rewrite rowsOf_upsertAll by (by apply (leagueData_league u)).
      rewrite Hempty. by apply (upsertAll_fresh cleaned []).
    + intros l'' Hl'' h Hh Heq. apply Hl'. rewrite <- Heq, Hh.
      apply list_elem_of_fmap. by exists l''.
  - apply IH; try done.
    + intros l'' Hl''. apply Hok. by right.
    + unfold rowsOf. rewrite upsertAll_other; [exact Hempty|].
      intros g Hg h Hh Heq. apply Hl'.
      rewrite <- (leagueData_league _ _ _ Hc' g Hg), <- Hh, Heq.
      apply list_elem_of_fmap. by exists l.
Qed.

(** X18: after an ingest in which every league of the batch succeeds
    and the batch names each league once, the stored rows of a league
    whose events have distinct ids are exactly the normalised events of
    its scoreboard, in their order, whatever was stored before. *)
Theorem ingest_stores_the_scoreboard (u : upstream) (ls : list leagueRef) (t : table)
    (l : leagueRef) (cleaned : list game) :
  (forall l', l' ∈ ls -> is_Some (leagueData u l')) ->
  NoDup (names ls) -> l ∈ ls ->
  leagueData u l = Some cleaned -> NoDup (keyOf <$> cleaned) ->
  exists r, ingestData u ls t = Some r /\ rowsOf (name l) (db r) = cleaned.
Proof.
  intros Hok Hnd Hin Hl Hkeys.
  destruct ls as [|l0 ls0]; [by apply elem_of_nil in Hin|].
  rewrite ingestData_cons. eexists. split; [done|].
  apply ingestLoop_snapshot; try done.
  apply filter_none. intros g Hg Hgl.
  apply list_elem_of_filter in Hg as [Hg _]. apply Hg.
  rewrite Hgl. apply list_elem_of_fmap. by exists l.
Qed.

Lemma ingest_stores_the_scoreboard_witness :
  exists r, ingestData (Samples.nflIs "post") [Samples.nfl] Samples.threeGames = Some r /\
            rowsOf "NFL" (db r) =
              [mkGame "NFL" "401" None "Home" None 7 "Away" None 3 2000 "detail" "post"].
Proof.
  apply (ingest_stores_the_scoreboard (Samples.nflIs "post") [Samples.nfl]
           Samples.threeGames Samples.nfl).
  - intros l Hl. apply list_elem_of_singleton in Hl as ->. eexists. reflexivity.
  - apply NoDup_singleton.
  - apply list_elem_of_singleton. reflexivity.
  - reflexivity.
  - apply NoDup_singleton.
Defined.

(** X19: the normalisation fails exactly when the date of the event is
    invalid; a row it produces carries the league of the batch entry and
    the id of the event, and its team names, short detail and state are
    never empty, nor is a stored link or logo an empty text. *)
Theorem normalize_defaults (n : string) (e : event) :
  (normalize n e = None <-> date e = None) /\
  (forall g, normalize n e = Some g ->
     league g = n /\ external_game_id g = id e /\
     home_team_name g <> EmptyString /\ away_team_name g <> EmptyString /\
     short_detail g <> EmptyString /\ state g <> EmptyString /\
     link g <> Some EmptyString /\
     home_team_logo g <> Some EmptyString /\ away_team_logo g <> Some EmptyString).
Proof.
  assert (Hs : forall x d, d <> EmptyString -> orString x d <> EmptyString).
  { intros [[|c s]|] d Hd; simpl; done. }
  assert (Hn : forall x, orNull x <> Some EmptyString).
  { intros [[|c s]|]; simpl; done. }
  unfold normalize. destruct (date e) as [d|]; simpl.
  - split; [done|]. intros g [= <-]. simpl.
    repeat split; try apply Hs; try apply Hn; done.
  - split; [done|]. by intros g.
Qed.

End IngestMore.

(** ** The scheduler: which leagues a daily run touches *)

Section SchedMore.
Import Store Ingest Batch Api Sched.

















(** X25: the slug of a league is the slug of the first configuration
    with its name; a league without configuration gets none, and its
    scoreboard is requested under the name null. *)
Theorem getSlugForLeague_lookup (e : env) (l : string) :
  (forall before cfg after,
     leagueConfigs e = before ++ cfg :: after ->
     name cfg = l -> l ∉ names before ->
     getSlugForLeague e l = slug cfg) /\
  (l ∉ names (leagueConfigs e) ->
     getSlugForLeague e l = None /\
     scoreboardUrl (up e) (mkLeague l (getSlugForLeague e l)) =
       ESPN_API_URL (up e) +:+ "/" +:+ "null" +:+ "/scoreboard").
Proof.
  unfold getSlugForLeague. split.
  - intros before cfg after -> Hname Hnot.
    induction before as [|c before IH]; simpl.
    + by rewrite bool_decide_eq_true_2.
    + unfold names in Hnot. rewrite fmap_cons in Hnot.
      apply not_elem_of_cons in Hnot as [Hc Hnot].
      rewrite bool_decide_eq_false_2 by congruence. by apply IH.
  - intros Hnot.
    assert (Hnone : List.find (fun cfg => bool_decide (name cfg = l)) (leagueConfigs e)
                    = None).
    { induction (leagueConfigs e) as [|c cs IH]; [done|]. simpl.
      unfold names in Hnot. rewrite fmap_cons in Hnot.
      apply not_elem_of_cons in Hnot as [Hc Hnot].
      rewrite bool_decide_eq_false_2 by congruence. by apply IH. }
    rewrite Hnone. done.
Qed.

End SchedMore.

(** ** The filter server on mock data *)

Section MockMore.
Import Mock.

Lemma includes_spec (xs : list string) (x : string) :
  Store.includes xs x = true <-> x ∈ xs.
Proof. unfold Store.includes. apply bool_decide_eq_true. Qed.

Lemma matches_spec (filters : list string) (it : item) :
  matches filters it = true <->
  (categoryFilters filters = [] \/ category it ∈ categoryFilters filters) /\
  (statusFilters filters = [] \/ status it ∈ statusFilters filters) /\
  (priorityFilters filters = [] \/ priority it ∈ priorityFilters filters).
Proof.
  unfold matches. rewrite !andb_true_iff, !orb_true_iff, !includes_spec, !isEmpty_nil.
  tauto.
Qed.

(** X26: the mock filter returns a sub-list of the data, in the order
    of the data: exactly the items whose category is one of the category
    tokens if there are any, whose status is one of the status tokens if
    there are any, and whose priority is one of the priority tokens if
    there are any; tokens of no group have no effect. *)
Theorem filterData_contains (filters : list string) (mockData : list item) :
  filterData filters mockData `sublist_of` mockData /\
  (forall it, it ∈ filterData filters mockData <->
     it ∈ mockData /\
     (categoryFilters filters = [] \/ category it ∈ categoryFilters filters) /\
     (statusFilters filters = [] \/ status it ∈ statusFilters filters) /\
     (priorityFilters filters = [] \/ priority it ∈ priorityFilters filters)).
Proof.
  unfold filterData. destruct filters as [|f filters].
  - split; [done|]. intros it. simpl. split; [|by intros [? _]].
    intros Hin. split; [done|]. repeat split; by left.
  - simpl isEmpty. cbv iota. split; [apply sublist_filter|].
    intros it. rewrite list_elem_of_filter, Is_true_true, matches_spec. tauto.
Qed.

Lemma filterData_filter (filters : list string) (mockData : list item) :
  filterData filters mockData =
  filter (fun it => Is_true (matches filters it)) mockData.
Proof.
  unfold filterData. destruct filters as [|f filters]; [|done].
  simpl. symmetry. apply filter_all. by intros it _.
Qed.

(** X27: filtering the mock data twice with one selection is the same
    as filtering once, and two selections can be applied in either
    order. *)
Theorem filterData_composes (f1 f2 : list string) (mockData : list item) :
  filterData f1 (filterData f1 mockData) = filterData f1 mockData /\
  filterData f1 (filterData f2 mockData) = filterData f2 (filterData f1 mockData).
Proof.
  rewrite !filterData_filter. split; [apply filter_twice | apply filter_swap].
Qed.

End MockMore.

(** ** The dashboard *)

Section DashboardMore.
Import Api Filter Dashboard.

Lemma getToggle_setToggle (k k' : string) (v : bool) (ts : togglesT) :
  getToggle k' (setToggle k v ts) = if decide (k' = k) then Some v else getToggle k' ts.
Proof.
  induction ts as [|[k0 v0] ts IH]; simpl.
  - destruct (decide (k' = k)) as [->|Hne].
    + by rewrite bool_decide_eq_true_2.
    + by rewrite bool_decide_eq_false_2.
  - destruct (bool_decide (k = k0)) eqn:Hk; simpl.
    + apply bool_decide_eq_true in Hk as <-.
      destruct (decide (k' = k)) as [->|Hne].
      * by rewrite bool_decide_eq_true_2.
      * by rewrite !bool_decide_eq_false_2.
    + apply bool_decide_eq_false in Hk. rewrite IH.
      destruct (decide (k' = k)) as [->|Hne]; [|done].
      by rewrite bool_decide_eq_false_2.
Qed.

Lemma setToggle_keys (k : string) (v : bool) (ts : togglesT) :
  (setToggle k v ts).*1 = if decide (k ∈ ts.*1) then ts.*1 else ts.*1 ++ [k].
Proof.
  induction ts as [|[k0 v0] ts IH]; [done|].
  change (setToggle k v ((k0, v0) :: ts))
    with (if bool_decide (k = k0) then (k, v) :: ts else (k0, v0) :: setToggle k v ts).
  rewrite (fmap_cons fst (k0, v0) ts). cbn [fst].
  destruct (bool_decide (k = k0)) eqn:Hk.
  - apply bool_decide_eq_true in Hk as <-. rewrite fmap_cons. cbn [fst].
    rewrite decide_True; [done|]. apply elem_of_cons. by left.
  - apply bool_decide_eq_false in Hk. rewrite fmap_cons, IH. cbn [fst].
    destruct (decide (k ∈ ts.*1)) as [Hin|Hin].
    + rewrite decide_True; [done|]. apply elem_of_cons. by right.
    + rewrite decide_False; [done|]. intros [?|?]%elem_of_cons; done.
Qed.

Lemma setToggle_keys_NoDup (k : string) (v : bool) (ts : togglesT) :
  NoDup ts.*1 -> NoDup (setToggle k v ts).*1.
Proof.
  intros Hnd. rewrite setToggle_keys. case_decide as Hin; [done|].
  apply NoDup_app. split; [done|]. split; [|apply NoDup_singleton].
  intros x Hx Hx'. apply list_elem_of_singleton in Hx'. congruence.
Qed.

Lemma getToggle_elem (k : string) (v : bool) (ts : togglesT) :
  NoDup ts.*1 -> (k, v) ∈ ts <-> getToggle k ts = Some v.
Proof.
  induction ts as [|[k0 v0] ts IH]; intros Hnd; simpl.
  - split; [by intros ?%elem_of_nil | done].
  - rewrite fmap_cons in Hnd. apply NoDup_cons in Hnd as [Hk0 Hnd]. simpl in Hk0.
    rewrite elem_of_cons, (IH Hnd).
    destruct (bool_decide (k = k0)) eqn:Hk.
    + apply bool_decide_eq_true in Hk as <-. split.
      * intros [[= <-]|Hget]; [done|]. destruct Hk0.
        apply (IH Hnd) in Hget. apply list_elem_of_fmap. by exists (k, v).
      * intros [= <-]. by left.
    + apply bool_decide_eq_false in Hk. split; [|by right].
      intros [[= ? ?]|?]; done.
Qed.

Lemma activeFilters_elem (k : string) (ts : togglesT) :
  NoDup ts.*1 -> k ∈ activeFilters ts <-> getToggle k ts = Some true.
Proof.
  intros Hnd. rewrite <- (getToggle_elem k true ts Hnd). unfold activeFilters.
  rewrite list_elem_of_fmap. split.
  - intros ([k' v] & -> & Hin). apply list_elem_of_filter in Hin as [Hv Hin].
    simpl in *. by destruct v.
  - intros Hin. exists (k, true). split; [done|]. by apply list_elem_of_filter.
Qed.

Lemma activeFilters_NoDup (ts : togglesT) : NoDup ts.*1 -> NoDup (activeFilters ts).
Proof.
  unfold activeFilters. intros Hnd.
  eapply sublist_NoDup; [exact Hnd|].
  apply fmap_sublist, sublist_filter.
Qed.

(** X28: as long as the toggles have distinct keys, as the initial ones
    do, a toggle change and a clear keep them distinct, and the selection
    that the dashboard sends names no token twice; so the league tokens
    that the server reads from it are distinct. *)
Theorem dashboard_sends_distinct_tokens (ts : togglesT) (k : string) :
  NoDup ts.*1 ->
  NoDup (handleToggleChange k ts).*1 /\
  NoDup (activeFilters ts) /\
  NoDup (leagueFilters (activeFilters ts)) /\
  NoDup initialToggles.*1.
Proof.
  intros Hnd. split; [by apply setToggle_keys_NoDup|].
  split; [by apply activeFilters_NoDup|].
  split; [by apply NoDup_filter, activeFilters_NoDup|].
  apply (bool_decide_unpack _). by vm_compute.
Qed.

Lemma dashboard_sends_distinct_tokens_witness :
  NoDup (activeFilters (handleToggleChange "NFL" initialToggles)).
Proof.
  apply (dashboard_sends_distinct_tokens (handleToggleChange "NFL" initialToggles) "NBA").
  apply (bool_decide_unpack _). by vm_compute.
Defined.

(** X29: a toggle change switches the membership of its key in the
    selection and of no other key; a key that was not among the toggles
    is added switched on. *)
Theorem handleToggleChange_flips_one (ts : togglesT) (k : string) :
  NoDup ts.*1 ->
  (k ∈ activeFilters (handleToggleChange k ts) <-> k ∉ activeFilters ts) /\
  (forall k', k' <> k ->
     (k' ∈ activeFilters (handleToggleChange k ts) <-> k' ∈ activeFilters ts)) /\
  (k ∉ ts.*1 -> handleToggleChange k ts = ts ++ [(k, true)]).
Proof.
  intros Hnd.
  pose proof (setToggle_keys_NoDup k (negb (default false (getToggle k ts))) ts Hnd)
    as Hnd'.
  unfold handleToggleChange in *. split; [|split].
  - rewrite !activeFilters_elem, getToggle_setToggle by done.
    rewrite decide_True by done. destruct (getToggle k ts) as [[|]|]; simpl; split;
      try done; intros H; try done; by destruct H.
  - intros k' Hne. rewrite !activeFilters_elem, getToggle_setToggle by done.
    by rewrite decide_False.
  - intros Hk. assert (Hget : getToggle k ts = None).
    { destruct (getToggle k ts) as [v|] eqn:Hv; [|done]. destruct Hk.
      apply getToggle_elem in Hv; [|done]. apply list_elem_of_fmap. by exists (k, v). }
    rewrite Hget. simpl. clear Hnd Hnd' Hget.
    induction ts as [|[k0 v0] ts IH]; [done|]. simpl.
    rewrite fmap_cons in Hk. apply not_elem_of_cons in Hk as [Hne Hk].
    rewrite bool_decide_eq_false_2 by done. by rewrite IH.
Qed.

Lemma handleToggleChange_flips_one_witness :
  "NFL" ∈ activeFilters (handleToggleChange "NFL" initialToggles) <->
  "NFL" ∉ activeFilters initialToggles.
Proof.
  apply (handleToggleChange_flips_one initialToggles "NFL").
  apply (bool_decide_unpack _). by vm_compute.
Defined.

Lemma setToggle_same (k : string) (v : bool) (ts : togglesT) :
  getToggle k ts = Some v -> setToggle k v ts = ts.
Proof.
  induction ts as [|[k0 v0] ts IH]; simpl; [done|].
  destruct (bool_decide (k = k0)) eqn:Hk.
  - apply bool_decide_eq_true in Hk as <-. by intros [= ->].
  - intros Hget. by rewrite IH.
Qed.

Lemma setToggle_twice (k : string) (v v' : bool) (ts : togglesT) :
  setToggle k v (setToggle k v' ts) = setToggle k v ts.
Proof.
  induction ts as [|[k0 v0] ts IH]; simpl.
  - by rewrite bool_decide_eq_true_2.
  - destruct (bool_decide (k = k0)) eqn:Hk; simpl.
    + by rewrite bool_decide_eq_true_2.
    + by rewrite Hk, IH.
Qed.

Lemma clear_all_false (ks : list string) (acc : togglesT) :
  (forall e, e ∈ acc -> e.2 = false) ->
  forall e, e ∈ foldl (fun a key => setToggle key false a) acc ks -> e.2 = false.
Proof.
  revert acc. induction ks as [|k ks IH]; intros acc Hacc; [done|].
  simpl. apply IH. clear IH. induction acc as [|[k0 v0] acc IHa]; simpl.
  - intros e He. by apply list_elem_of_singleton in He as ->.
  - destruct (bool_decide (k = k0)).
    + intros e [->|He]%elem_of_cons; [done|]. apply Hacc. by right.
    + intros e [->|He]%elem_of_cons; [apply (Hacc (k0, v0)); by left|].
      apply IHa; [|done]. intros e' He'. apply Hacc. by right.
Qed.

(** X30: clearing switches every toggle off, so the selection sent
    after it is empty and the server answers it with all games; changing
    a toggle that is among the toggles twice gives the toggles back. *)
Theorem clear_and_double_toggle (ts : togglesT) (k : string) (t : list Store.game)
    (ws : conn) (a : apiState) :
  activeFilters (clearAllFilters ts) = [] /\
  sendFilterRequest true (clearAllFilters ts) = Some (FilterRequest (Some [])) /\
  outbox (onMessage ws (FilterRequest (Some (activeFilters (clearAllFilters ts)))) t a) =
    outbox a ++ [(ws, FilteredData (Store.getAllGames t) (Some [])
                        (length (Store.getAllGames t)) false)] /\
  (k ∈ ts.*1 -> handleToggleChange k (handleToggleChange k ts) = ts).
Proof.
  assert (Hclear : activeFilters (clearAllFilters ts) = []).
  { unfold activeFilters, clearAllFilters. rewrite filter_none; [done|].
    intros e He Hv. rewrite (clear_all_false ts.*1 [] ) in Hv; [done| |done].
    by intros ? ?%elem_of_nil. }
  split; [done|]. split; [unfold sendFilterRequest; by rewrite Hclear|].
  split; [by rewrite Hclear|].
  intros Hk. unfold handleToggleChange.
  assert (Hsome : exists v, getToggle k ts = Some v).
  { clear -Hk. induction ts as [|[k0 v0] ts IH]; [by apply elem_of_nil in Hk|].
    simpl. destruct (bool_decide (k = k0)) eqn:Hk0; [by eexists|].
    apply bool_decide_eq_false in Hk0. rewrite fmap_cons in Hk.
    apply elem_of_cons in Hk as [?|?]; [done | by apply IH]. }
  destruct Hsome as [v Hv]. rewrite getToggle_setToggle, decide_True by done.
  rewrite Hv. simpl. rewrite setToggle_twice, negb_involutive.
  by apply setToggle_same.
Qed.

Lemma clear_and_double_toggle_witness :
  handleToggleChange "NFL" (handleToggleChange "NFL" initialToggles) = initialToggles.
Proof.
  apply (clear_and_double_toggle initialToggles "NFL" [] 0%nat ApiMore.started).
  apply (bool_decide_unpack _). by vm_compute.
Defined.

End DashboardMore.
